(** * go-cache: an in-memory key:value store with optional expiration

    A shallow embedding of [cache.go] (package [gocache]) and the
    properties of its store and of its janitor goroutine.

    - [map[string]Item] is a [gmap string Item];
    - [int64] and [time.Duration] are [Z], with the wrap-around of the
      machine arithmetic written out ([wrap64]);
    - every method that runs under [c.mu] is one atomic function on the
      cache state; the reading of [time.Now().UnixNano()] it uses is an
      explicit argument [now];
    - the bytes of an entry are a value in the store of the first part;
      [Module Mem] is the store with the slices the code keeps, and the
      memory they point into;
    - [encoding/json] is a collaborator of the package: its two entry
      points are the variables of a section;
    - the janitor goroutine and the unbuffered channel [stopCleanup] are a
      step relation ([Module Janitor]). *)

From Stdlib Require Import ZArith String List Lia.
From stdpp Require Import gmap strings list fin_maps.

Local Open Scope Z_scope.

(** ** Machine integers *)

Definition int64_min : Z := - 2 ^ 63.
Definition int64_max : Z := 2 ^ 63 - 1.

Definition int64_range (z : Z) : Prop := int64_min <= z <= int64_max.

(** Two's complement wrap-around of [int64] arithmetic. *)
Definition wrap64 (z : Z) : Z := (z + 2 ^ 63) mod 2 ^ 64 - 2 ^ 63.

(** ** Data *)

(** [[]byte] *)
Abbreviation bytes := (list Byte.byte).

(** [type Item struct { Value []byte; Expiration int64; Created int64 }];
    [Expiration = 0] means no expiration. *)
Record Item : Type := mkItem {
  Value : bytes;
  Expiration : Z;
  Created : Z
}.

(** The fields of [Cache] that the methods read and write under [mu].
    [stopCleanup] is an unbuffered channel: it holds no value between two
    operations, and is modelled by the rendezvous step of [Module Janitor]. *)
Record Cache : Type := mkCache {
  items : gmap string Item;
  cleanupInterval : Z
}.

(** Go's [error] values of this package: [errors.New(text)], and the errors
    handed back by [encoding/json]. *)
Inductive error : Type :=
| errors_New (text : string)
| json_error (text : string).

(** [time.Now().Add(duration).UnixNano()] when the clock reads [now]
    nanoseconds since the epoch: the sum, in [int64] arithmetic. *)
Definition Now_Add_UnixNano (now duration : Z) : Z := wrap64 (now + duration).

(** The expiration [SetWithExpiration] computes (lines 66-72). *)
Definition expiration_of (now duration : Z) : Z :=
  if duration <=? 0 then 0 else Now_Add_UnixNano now duration.

(** The test of lines 96, 152 and 180:
    [item.Expiration > 0 && now > item.Expiration]. *)
Definition expired (now : Z) (item : Item) : bool :=
  (0 <? Expiration item) && (Expiration item <? now).

(** ** The store *)

(** [New(cleanupInterval)], the state it allocates. Whether it also starts
    the janitor is [Janitor.New] below. *)
Definition New (interval : Z) : Cache :=
  {| items := ∅; cleanupInterval := interval |}.

(** [GetBytes(key)]; the [nil] slice is the empty list. *)
Definition GetBytes (c : Cache) (now : Z) (key : string) : bytes * bool :=
  match items c !! key with
  | None => ([], false)
  | Some item =>
      if expired now item then ([], false)
      else (Value item, true)
  end.

(** [GetString(key)] *)
Definition GetString (c : Cache) (now : Z) (key : string) : string * bool :=
  let '(b, found) := GetBytes c now key in
  if negb found then (EmptyString, false)
  else (string_of_list_byte b, true).

(** [Delete(key)] *)
Definition Delete (c : Cache) (key : string) : Cache :=
  {| items := delete key (items c); cleanupInterval := cleanupInterval c |}.

(** [Exists(key)] *)
Definition Exists (c : Cache) (now : Z) (key : string) : bool :=
  match items c !! key with
  | None => false
  | Some item => if expired now item then false else true
  end.

(** [Flush()] *)
Definition Flush (c : Cache) : Cache :=
  {| items := ∅; cleanupInterval := cleanupInterval c |}.

(** [Count()]: [len(c.items)] *)
Definition Count (c : Cache) : Z := Z.of_nat (size (items c)).

(** One iteration of the loop of [DeleteExpired] (lines 180-182). *)
Definition DeleteExpired_body (now : Z) (k : string) (v : Item)
    (m : gmap string Item) : gmap string Item :=
  if expired now v then delete k m else m.

(** [DeleteExpired()]: the [range] loop visits the entries of [c.items] and
    deletes from [c.items] itself. *)
Definition DeleteExpired (c : Cache) (now : Z) : Cache :=
  {| items := map_fold (DeleteExpired_body now) (items c) (items c);
     cleanupInterval := cleanupInterval c |}.

(** [TTL(key)]; the result is a [time.Duration] and an [error]. *)
Definition TTL (c : Cache) (now : Z) (key : string) : Z * option error :=
  match items c !! key with
  | None => (0, Some (errors_New "key not found"))
  | Some item =>
      if Expiration item =? 0 then (-1, None)
      else if Expiration item <? now then (0, Some (errors_New "key expired"))
      else (wrap64 (Expiration item - now), None)
  end.

(** ** Values, targets and the JSON collaborator *)

Section Codec.

(** The dynamic types other than [[]byte] and [string] that a caller may
    store or ask for. *)
Variable T : Type.

(** [json.Marshal(value)] *)
Variable json_Marshal : T -> bytes + error.

(** [json.Unmarshal(data, target)] for a target that points to [old]: the
    new contents of the pointee and the error. *)
Variable json_Unmarshal : bytes -> T -> T * option error.

(** The [value interface{}] argument of [Set], by the cases of the type
    switch of lines 53-64. *)
Inductive value : Type :=
| VBytes (v : bytes)
| VString (v : string)
| VOther (v : T).

(** The [target interface{}] argument of [Get], by the cases of lines
    111-122: the nil interface, a pointer to a string, with the string it
    points to, and any other target, as [json.Unmarshal] receives it. A
    [*string] that is nil is none of these: see [Get_call]. *)
Inductive target : Type :=
| TNil
| TStringPtr (old : string)
| TOther (old : T).

(** The type switch of [SetWithExpiration]. *)
Definition encode (v : value) : bytes + error :=
  match v with
  | VBytes b => inl b
  | VString s => inl (list_byte_of_string s)
  | VOther x => json_Marshal x
  end.

(** [SetWithExpiration(key, value, duration)]. [now] is the reading of
    line 71 and [created] the one of line 78. *)
Definition SetWithExpiration (c : Cache) (now created : Z) (key : string)
    (v : value) (duration : Z) : Cache * option error :=
  match encode v with
  | inr err => (c, Some err)
  | inl b =>
      let expiration := expiration_of now duration in
      ({| items := <[key := {| Value := b; Expiration := expiration;
                               Created := created |}]> (items c);
          cleanupInterval := cleanupInterval c |}, None)
  end.

(** [Set(key, value)] *)
Definition Set_ (c : Cache) (now created : Z) (key : string) (v : value)
    : Cache * option error :=
  SetWithExpiration c now created key v 0.

(** [Get(key, target)]: found, error, and the target after the call. *)
Definition Get (c : Cache) (now : Z) (key : string) (tgt : target)
    : bool * option error * target :=
  let '(b, found) := GetBytes c now key in
  if negb found then (false, None, tgt)
  else
    match tgt with
    | TNil => (true, None, TNil)
    | TStringPtr _ => (true, None, TStringPtr (string_of_list_byte b))
    | TOther old =>
        let '(new, err) := json_Unmarshal b old in
        (true, err, TOther new)
    end.

(** *** Sequences of mutating calls *)

(** The calls that write [c.items], with the clock readings each one takes
    after the first. *)
Inductive op : Type :=
| OpSetWithExpiration (created : Z) (key : string) (v : value) (duration : Z)
| OpDelete (key : string)
| OpFlush
| OpDeleteExpired.

(** One call, made when the clock reads [now]. *)
Definition exec (c : Cache) (step : Z * op) : Cache :=
  let '(now, o) := step in
  match o with
  | OpSetWithExpiration created key v duration =>
      fst (SetWithExpiration c now created key v duration)
  | OpDelete key => Delete c key
  | OpFlush => Flush c
  | OpDeleteExpired => DeleteExpired c now
  end.

Definition run (c : Cache) (trace : list (Z * op)) : Cache :=
  fold_left exec trace c.

(** [delete(k)], [flush()] and a [set] on [k]: the calls the properties
    of a stored key are stated up to. *)
Definition touches (k : string) (o : op) : bool :=
  match o with
  | OpSetWithExpiration _ key _ _ => bool_decide (key = k)
  | OpDelete key => bool_decide (key = k)
  | OpFlush => true
  | OpDeleteExpired => false
  end.

Definition untouched (k : string) (trace : list (Z * op)) : Prop :=
  Forall (fun step => touches k (snd step) = false) trace.

End Codec.

Arguments encode {T} json_Marshal v.
Arguments SetWithExpiration {T} json_Marshal c now created key v duration.
Arguments Set_ {T} json_Marshal c now created key v.
Arguments Get {T} json_Unmarshal c now key tgt.
Arguments exec {T} json_Marshal c step.
Arguments run {T} json_Marshal c trace.
Arguments touches {T} k o.
Arguments untouched {T} k trace.
Arguments VBytes {T} v.
Arguments VString {T} v.
Arguments VOther {T} v.
Arguments TNil {T}.
Arguments TStringPtr {T} old.
Arguments TOther {T} old.
Arguments OpSetWithExpiration {T} created key v duration.
Arguments OpDelete {T} key.
Arguments OpFlush {T}.
Arguments OpDeleteExpired {T}.

(** ** Slices and the arrays behind them *)

(** The store above keeps the bytes of an entry as a value. The code keeps
    a slice: line 55 stores the slice it was given and line 100 returns the
    slice it stores, neither with a copy. [Module Mem] is the same store
    with slices into a memory of arrays, and with the writes other holders
    of a slice can make; [view] below reads it as a [Cache]. *)

Module Mem.

(** A [[]byte]: [nil], or [len] cells of an array from cell [off] on. *)
Inductive slice : Type :=
| nil_slice
| mkSlice (array : positive) (off len : nat).

(** The arrays, by address. *)
Abbreviation heap := (gmap positive bytes).

(** The bytes a slice shows. *)
Definition contents (h : heap) (s : slice) : bytes :=
  match s with
  | nil_slice => []
  | mkSlice a off len => take len (drop off (default [] (h !! a)))
  end.

(** A slice of an array that exists. *)
Definition allocated (h : heap) (s : slice) : Prop :=
  match s with
  | nil_slice => True
  | mkSlice a _ _ => is_Some (h !! a)
  end.

(** A new array holding [b] and the slice of all of it: what [[]byte(v)]
    and [json.Marshal] hand back. *)
Definition alloc (h : heap) (b : bytes) : heap * slice :=
  let a := fresh (dom h) in (<[a := b]> h, mkSlice a 0 (length b)).

(** [b[j] = x] by a holder of a slice [b] of array [a], where [i] is the
    cell of the array that [b[j]] is. An index outside the array writes
    nothing (the statement panics). *)
Definition write (h : heap) (a : positive) (i : nat) (x : Byte.byte) : heap :=
  match h !! a with
  | Some l => <[a := <[i := x]> l]> h
  | None => h
  end.

Record Item : Type := mkItem {
  Value : slice;
  Expiration : Z;
  Created : Z
}.

Record Cache : Type := mkCache {
  items : gmap string Item;
  cleanupInterval : Z
}.

Record state : Type := mkState {
  mem : heap;
  cache : Cache
}.

Definition expired (now : Z) (item : Item) : bool :=
  (0 <? Expiration item) && (Expiration item <? now).

(** [GetBytes(key)]: the slice of the entry itself. *)
Definition GetBytes (st : state) (now : Z) (key : string) : slice * bool :=
  match items (cache st) !! key with
  | None => (nil_slice, false)
  | Some item =>
      if expired now item then (nil_slice, false)
      else (Value item, true)
  end.

(** [GetString(key)]: [string(bytes)] copies what the slice shows. *)
Definition GetString (st : state) (now : Z) (key : string) : string * bool :=
  let '(b, found) := GetBytes st now key in
  if negb found then (EmptyString, false)
  else (string_of_list_byte (contents (mem st) b), true).

Definition Delete (st : state) (key : string) : state :=
  {| mem := mem st;
     cache := {| items := delete key (items (cache st));
                 cleanupInterval := cleanupInterval (cache st) |} |}.

Definition Flush (st : state) : state :=
  {| mem := mem st;
     cache := {| items := ∅; cleanupInterval := cleanupInterval (cache st) |} |}.

Definition DeleteExpired_body (now : Z) (k : string) (v : Item)
    (m : gmap string Item) : gmap string Item :=
  if expired now v then delete k m else m.

Definition DeleteExpired (st : state) (now : Z) : state :=
  {| mem := mem st;
     cache := {| items := map_fold (DeleteExpired_body now)
                            (items (cache st)) (items (cache st));
                 cleanupInterval := cleanupInterval (cache st) |} |}.

Section Codec.

Variable T : Type.
Variable json_Marshal : T -> bytes + error.
Variable json_Unmarshal : bytes -> T -> T * option error.

(** The [value interface{}] argument of [Set]; a [[]byte] is a slice. *)
Inductive value : Type :=
| VBytes (v : slice)
| VString (v : string)
| VOther (v : T).

(** The type switch of lines 53-64: the slice itself, a new array with the
    bytes of the string, or the new array [json.Marshal] returns. *)
Definition encode (h : heap) (v : value) : heap * slice + error :=
  match v with
  | VBytes s => inl (h, s)
  | VString str => inl (alloc h (list_byte_of_string str))
  | VOther x =>
      match json_Marshal x with
      | inl b => inl (alloc h b)
      | inr err => inr err
      end
  end.

Definition SetWithExpiration (st : state) (now created : Z) (key : string)
    (v : value) (duration : Z) : state * option error :=
  match encode (mem st) v with
  | inr err => (st, Some err)
  | inl (h, s) =>
      let expiration := expiration_of now duration in
      ({| mem := h;
          cache := {| items := <[key := {| Value := s; Expiration := expiration;
                                           Created := created |}]>
                                 (items (cache st));
                      cleanupInterval := cleanupInterval (cache st) |} |}, None)
  end.

Definition Set_ (st : state) (now created : Z) (key : string) (v : value)
    : state * option error :=
  SetWithExpiration st now created key v 0.

(** [Get(key, target)]: [string(bytes)] and [json.Unmarshal(bytes, target)]
    read what the slice shows when they run. *)
Definition Get (st : state) (now : Z) (key : string) (tgt : target T)
    : bool * option error * target T :=
  let '(b, found) := GetBytes st now key in
  if negb found then (false, None, tgt)
  else
    match tgt with
    | TNil => (true, None, TNil)
    | TStringPtr _ =>
        (true, None, TStringPtr (string_of_list_byte (contents (mem st) b)))
    | TOther old =>
        let '(new, err) := json_Unmarshal (contents (mem st) b) old in
        (true, err, TOther new)
    end.

(** The calls on the cache, and what callers do with memory: make a new
    array, and write through a slice they hold. *)
Inductive op : Type :=
| OpSetWithExpiration (created : Z) (key : string) (v : value) (duration : Z)
| OpDelete (key : string)
| OpFlush
| OpDeleteExpired
| OpMake (b : bytes)
| OpWrite (a : positive) (i : nat) (x : Byte.byte).

Definition exec (st : state) (step : Z * op) : state :=
  let '(now, o) := step in
  match o with
  | OpSetWithExpiration created key v duration =>
      fst (SetWithExpiration st now created key v duration)
  | OpDelete key => Delete st key
  | OpFlush => Flush st
  | OpDeleteExpired => DeleteExpired st now
  | OpMake b => {| mem := (alloc (mem st) b).1; cache := cache st |}
  | OpWrite a i x => {| mem := write (mem st) a i x; cache := cache st |}
  end.

Definition run (st : state) (trace : list (Z * op)) : state :=
  fold_left exec trace st.

Definition touches (k : string) (o : op) : bool :=
  match o with
  | OpSetWithExpiration _ key _ _ => bool_decide (key = k)
  | OpDelete key => bool_decide (key = k)
  | OpFlush => true
  | OpDeleteExpired => false
  | OpMake _ => false
  | OpWrite _ _ _ => false
  end.

Definition untouched (k : string) (trace : list (Z * op)) : Prop :=
  Forall (fun step => touches k (snd step) = false) trace.

(** A write into the array of the slice. *)
Definition writes_into (s : slice) (o : op) : bool :=
  match o, s with
  | OpWrite a _ _, mkSlice a' _ _ => bool_decide (a = a')
  | _, _ => false
  end.

Definition unwritten (s : slice) (trace : list (Z * op)) : Prop :=
  Forall (fun step => writes_into s (snd step) = false) trace.

End Codec.

Arguments VBytes {T} v.
Arguments VString {T} v.
Arguments VOther {T} v.
Arguments encode {T} json_Marshal h v.
Arguments SetWithExpiration {T} json_Marshal st now created key v duration.
Arguments Set_ {T} json_Marshal st now created key v.
Arguments Get {T} json_Unmarshal st now key tgt.
Arguments OpSetWithExpiration {T} created key v duration.
Arguments OpDelete {T} key.
Arguments OpFlush {T}.
Arguments OpDeleteExpired {T}.
Arguments OpMake {T} b.
Arguments OpWrite {T} a i x.
Arguments exec {T} json_Marshal st step.
Arguments run {T} json_Marshal st trace.
Arguments touches {T} k o.
Arguments untouched {T} k trace.
Arguments writes_into {T} s o.
Arguments unwritten {T} s trace.

End Mem.

(** The store of the first part, read off the memory: each entry with the
    bytes its slice shows. *)
Definition view_item (h : Mem.heap) (item : Mem.Item) : Item :=
  {| Value := Mem.contents h (Mem.Value item);
     Expiration := Mem.Expiration item;
     Created := Mem.Created item |}.

Definition view (st : Mem.state) : Cache :=
  {| items := view_item (Mem.mem st) <$> Mem.items (Mem.cache st);
     cleanupInterval := Mem.cleanupInterval (Mem.cache st) |}.

(** A value of [Set] with the bytes its slice shows. *)
Definition view_value {T : Type} (h : Mem.heap) (v : Mem.value T) : value T :=
  match v with
  | Mem.VBytes s => VBytes (Mem.contents h s)
  | Mem.VString str => VString str
  | Mem.VOther x => VOther x
  end.

(** Every slice of the cache is a slice of an array that exists. *)
Definition allocated_cache (st : Mem.state) : Prop :=
  forall k item, Mem.items (Mem.cache st) !! k = Some item ->
                 Mem.allocated (Mem.mem st) (Mem.Value item).

(** The slices a step hands to [Set] are slices of arrays that exist. *)
Definition given_allocated_step {T : Type} (h : Mem.heap) (step : Z * Mem.op T)
    : Prop :=
  forall created key s d,
    snd step = Mem.OpSetWithExpiration created key (Mem.VBytes s) d ->
    Mem.allocated h s.

(** The same for every step of a trace, in the memory the step runs in. *)
Fixpoint given_allocated {T : Type} (json_Marshal : T -> bytes + error)
    (st : Mem.state) (trace : list (Z * Mem.op T)) : Prop :=
  match trace with
  | [] => True
  | step :: rest =>
      given_allocated_step (Mem.mem st) step /\
      given_allocated json_Marshal (Mem.exec json_Marshal st step) rest
  end.

(** ** Calls of [Get] with a nil pointer *)

Section Calls.

Variable T : Type.
Variable json_Unmarshal : bytes -> T -> T * option error.

(** What a caller can pass as [target]: one of the targets above, or a
    [*string] that is nil, which is not the nil interface of line 111. *)
Inductive argument : Type :=
| ATarget (tgt : target T)
| ANilStringPtr.

(** A call returns, or panics. *)
Inductive outcome : Type :=
| Returns (found : bool) (err : option error) (after : argument)
| Panics.

(** [Get(key, target)], lines 104-123, with the nil pointer dereference
    of line 117. *)
Definition Get_call (c : Cache) (now : Z) (key : string) (a : argument)
    : outcome :=
  let '(b, found) := GetBytes c now key in
  if negb found then Returns false None a
  else
    match a with
    | ATarget TNil => Returns true None a
    | ATarget (TStringPtr _) =>
        Returns true None (ATarget (TStringPtr (string_of_list_byte b)))
    | ANilStringPtr => Panics
    | ATarget (TOther old) =>
        let '(new, err) := json_Unmarshal b old in
        Returns true err (ATarget (TOther new))
    end.

End Calls.

Arguments ATarget {T} tgt.
Arguments ANilStringPtr {T}.
Arguments Returns {T} found err after.
Arguments Panics {T}.
Arguments Get_call {T} json_Unmarshal c now key a.

(** ** The janitor *)

Module Janitor.

(** The goroutine of [startJanitor]. *)
Inductive janitor : Type :=
| NotStarted  (* [New] did not start it: [cleanupInterval <= 0] *)
| Selecting   (* in the [select] of lines 193-198 *)
| Returned.   (* it took [<-c.stopCleanup] and returned, line 197 *)

(** A goroutine that calls [StopJanitor] some number of times in a row. *)
Inductive caller : Type :=
| AtGuard (rest : nat)  (* at line 204 of a call, [rest] more calls follow *)
| Sending (rest : nat)  (* at line 205, in [c.stopCleanup <- true] *)
| Finished.             (* every call has returned *)

Record system : Type := mkSystem {
  cache : Cache;
  jan : janitor;
  call : caller
}.

(** Where the caller is once a call has returned. *)
Definition after_call (rest : nat) : caller :=
  match rest with
  | O => Finished
  | S n => AtGuard n
  end.

(** [New(cleanupInterval)] followed by [calls] calls of [StopJanitor]:
    line 35 starts the janitor only for a positive interval. *)
Definition New (interval : Z) (calls : nat) : system :=
  {| cache := New interval;
     jan := if 0 <? interval then Selecting else NotStarted;
     call := after_call calls |}.

(** The steps of the two goroutines. [stopCleanup] is made by
    [make(chan bool)]: a send completes only together with a receive, and
    the only receive of the package is in the [select] of the janitor. *)
Inductive step : system -> system -> Prop :=
| step_guard_send c j rest :
    0 < cleanupInterval c ->
    step (mkSystem c j (AtGuard rest)) (mkSystem c j (Sending rest))
| step_guard_skip c j rest :
    cleanupInterval c <= 0 ->
    step (mkSystem c j (AtGuard rest)) (mkSystem c j (after_call rest))
| step_stop c rest :
    step (mkSystem c Selecting (Sending rest))
         (mkSystem c Returned (after_call rest))
| step_tick c now p :
    step (mkSystem c Selecting p) (mkSystem (DeleteExpired c now) Selecting p).

(** The states a run can be in. *)
Definition reachable (s0 s : system) : Prop := rtc step s0 s.

(** No goroutine can move: every goroutine left is blocked. *)
Definition stuck (s : system) : Prop := forall s', ~ step s s'.

End Janitor.

(** ** Well-formed states *)

(** What [SetWithExpiration] stores when the clock and the deadline are
    instants after the epoch that an [int64] holds: 0, or the deadline. *)
Definition valid_item (item : Item) : Prop :=
  0 <= Expiration item <= int64_max.

Definition valid_cache (c : Cache) : Prop :=
  forall k item, items c !! k = Some item -> valid_item item.

(** A clock reading after the epoch. *)
Definition valid_clock (now : Z) : Prop := 0 <= now <= int64_max.

(** The two errors of [TTL]. *)
Definition KeyNotFound : error := errors_New "key not found".
Definition KeyExpired : error := errors_New "key expired".

(** The entries [Exists] reports, and the others, as predicates on the
    bindings of the map. *)
Definition live (now : Z) (kv : string * Item) : Prop := expired now kv.2 = false.

#[global] Instance live_dec now kv : Decision (live now kv).
Proof. unfold live. apply _. Defined.

(** A call whose clock reading is after the epoch and whose deadline, if
    it sets one, is an instant an [int64] holds. *)
Definition fits {T : Type} (step : Z * op T) : Prop :=
  valid_clock (fst step) /\
  match snd step with
  | OpSetWithExpiration _ _ _ duration =>
      0 < duration -> fst step + duration <= int64_max
  | _ => True
  end.

(** A small stand-in for the collaborator, to run the statements on, with
    three kinds of Go values: a [bool], which JSON writes as [true] or
    [false]; a [chan int], which [json.Marshal] refuses; and a
    [struct { n int }], whose only field is unexported, so that
    [json.Marshal] writes [{}] for it and [json.Unmarshal] leaves it as it
    is. Its answers are those of [encoding/json] on the inputs [true],
    [false] and [{}], on no input, and on an input that starts with a
    letter other than [t], [f] and [n]. *)
Inductive demo : Type :=
| DBool (b : bool)
| DChan
| DOpaque (n : nat).

Definition demo_Marshal (x : demo) : bytes + error :=
  match x with
  | DBool true => inl (list_byte_of_string "true")
  | DBool false => inl (list_byte_of_string "false")
  | DChan => inr (json_error "json: unsupported type: chan int")
  | DOpaque _ => inl (list_byte_of_string "{}")
  end.

(** The Go type of a value, as the errors of [encoding/json] print it. *)
Definition demo_type (x : demo) : string :=
  match x with
  | DBool _ => "bool"
  | DChan => "chan int"
  | DOpaque _ => "struct { n int }"
  end.

Definition demo_Unmarshal (data : bytes) (old : demo) : demo * option error :=
  let text := string_of_list_byte data in
  match text with
  | EmptyString => (old, Some (json_error "unexpected end of JSON input"))
  | String first _ =>
      if String.eqb text "true" || String.eqb text "false" then
        match old with
        | DBool _ => (DBool (String.eqb text "true"), None)
        | _ => (old, Some (json_error
                  ("json: cannot unmarshal bool into Go value of type "
                   ++ demo_type old)))
        end
      else if String.eqb text "{}" then
        match old with
        | DOpaque _ => (old, None)
        | _ => (old, Some (json_error
                  ("json: cannot unmarshal object into Go value of type "
                   ++ demo_type old)))
        end
      else (old, Some (json_error
              ("invalid character '" ++ String first "' looking for beginning of value")))
  end.

(** A clock reading of the examples, in nanoseconds since the epoch, and
    the durations of package [time] they use. *)
Definition t0 : Z := 1700000000000000000.
Definition Millisecond : Z := 1000000.
Definition Second : Z := 1000000000.

(** A cache written through the calls: a key with a deadline 300
    nanoseconds after the clock reading 1000, and a key with none. *)
Definition example_trace : list (Z * op demo) :=
  [(1000, OpSetWithExpiration 1000 "temporary"%string (VString "soon"%string) 300);
   (1001, OpSetWithExpiration 1001 "forever"%string (VString "value"%string) 0)].

Definition example_cache : Cache := run demo_Marshal (New 0) example_trace.

(** Where a run of [New(interval)] and two calls of [StopJanitor] can be,
    for a positive interval: the janitor is still there until the first
    send is taken, and gone from then on. *)
Definition two_stops_inv (interval : Z) (s : Janitor.system) : Prop :=
  cleanupInterval (Janitor.cache s) = interval /\
  (Janitor.jan s = Janitor.Selecting /\
     (Janitor.call s = Janitor.AtGuard 1 \/ Janitor.call s = Janitor.Sending 1)
   \/
   Janitor.jan s = Janitor.Returned /\
     (Janitor.call s = Janitor.AtGuard 0 \/ Janitor.call s = Janitor.Sending 0)).

(** What the methods read of a cache: the bytes and the deadline of each
    entry, without its [Created]. *)
Definition observable (c : Cache) : gmap string (bytes * Z) :=
  (fun item => (Value item, Expiration item)) <$> items c.

(** * Properties *)

(** ** Arithmetic *)

Lemma wrap64_id z : int64_range z -> wrap64 z = z.
Proof.
  unfold int64_range, int64_min, int64_max, wrap64. intros Hz.
  rewrite Z.mod_small; lia.
Qed.

Lemma wrap64_range z : int64_range (wrap64 z).
Proof.
  unfold int64_range, int64_min, int64_max, wrap64.
  pose proof (Z.mod_pos_bound (z + 2 ^ 63) (2 ^ 64)). lia.
Qed.

Lemma expired_true now item :
  expired now item = true <-> 0 < Expiration item /\ Expiration item < now.
Proof. unfold expired. rewrite andb_true_iff, !Z.ltb_lt. tauto. Qed.

Lemma expired_false now item :
  expired now item = false <-> Expiration item <= 0 \/ now <= Expiration item.
Proof. unfold expired. rewrite andb_false_iff, !Z.ltb_ge. tauto. Qed.

(** On a well-formed entry the test is the one of the documentation:
    a deadline is set, and it has passed. *)
Lemma expired_valid now item :
  valid_item item ->
  expired now item = true <-> Expiration item <> 0 /\ now > Expiration item.
Proof. unfold valid_item. rewrite expired_true. lia. Qed.

Lemma expired_never now item : Expiration item = 0 -> expired now item = false.
Proof. intros H. apply expired_false. lia. Qed.

(** Outside the well-formed states the read path keeps an entry whose
    deadline is negative, at every instant. *)
Lemma expired_negative now item : Expiration item < 0 -> expired now item = false.
Proof. intros H. apply expired_false. lia. Qed.

Lemma expiration_of_no_ttl now duration :
  duration <= 0 -> expiration_of now duration = 0.
Proof. unfold expiration_of. intros H. by rewrite (proj2 (Z.leb_le _ _) H). Qed.

Lemma expiration_of_ttl now duration :
  0 < duration -> now + duration <= int64_max -> 0 <= now ->
  expiration_of now duration = now + duration.
Proof.
  unfold expiration_of, Now_Add_UnixNano. intros Hd Hmax Hnow.
  rewrite (proj2 (Z.leb_gt _ _) Hd). apply wrap64_id.
  unfold int64_range, int64_min, int64_max in *. lia.
Qed.

(** Whatever the duration, the entry just written is not expired at the
    instant of the write. *)
Lemma expiration_of_not_expired now created duration b :
  int64_range now -> int64_range duration ->
  expired now (mkItem b (expiration_of now duration) created) = false.
Proof.
  unfold int64_range, int64_min, int64_max. intros Hn Hd.
  apply expired_false; simpl. unfold expiration_of, Now_Add_UnixNano.
  destruct (Z.leb_spec duration 0) as [Hle|Hgt]; [lia|].
  destruct (Z.le_gt_cases (now + duration) int64_max) as [Hfit|Hover].
  - rewrite wrap64_id; unfold int64_range, int64_min, int64_max in *; lia.
  - left. unfold wrap64, int64_max in *.
    replace (now + duration + 2 ^ 63) with
      ((now + duration - 2 ^ 63) + 1 * 2 ^ 64) by lia.
    rewrite Z.mod_add by lia. rewrite Z.mod_small; lia.
Qed.

(** ** The loop of [DeleteExpired] *)

(** The loop, started on any map [b] and run over the entries of [m]. *)
Lemma DeleteExpired_loop now (b m : gmap string Item) (j : string) :
  map_fold (DeleteExpired_body now) b m !! j =
  match m !! j with
  | Some v => if expired now v then None else b !! j
  | None => b !! j
  end.
Proof.
  revert j.
  apply (map_fold_weak_ind
           (fun r m => forall j, r !! j =
              match m !! j with
              | Some v => if expired now v then None else b !! j
              | None => b !! j
              end)).
  - intros j. by rewrite lookup_empty.
  - intros i x m' r Hfresh IH j. unfold DeleteExpired_body.
    destruct (decide (i = j)) as [->|Hne].
    + rewrite lookup_insert_eq.
      destruct (expired now x) eqn:Hx.
      * by rewrite lookup_delete_eq.
      * rewrite IH, Hfresh. done.
    + rewrite lookup_insert_ne by done.
      destruct (expired now x); [rewrite lookup_delete_ne by done|]; apply IH.
Qed.

Lemma lookup_DeleteExpired c now k :
  items (DeleteExpired c now) !! k =
  match items c !! k with
  | Some v => if expired now v then None else Some v
  | None => None
  end.
Proof.
  unfold DeleteExpired; simpl. rewrite DeleteExpired_loop.
  destruct (items c !! k) as [v|] eqn:Hk; [|done].
  by destruct (expired now v).
Qed.

(** The loop is a filter. *)
Lemma DeleteExpired_filter c now :
  items (DeleteExpired c now) = filter (live now) (items c).
Proof.
  apply map_eq. intros k. rewrite lookup_DeleteExpired.
  destruct (items c !! k) as [v|] eqn:Hk.
  - destruct (expired now v) eqn:Hv.
    + symmetry. apply map_lookup_filter_None. right. intros x Hx.
      unfold live; simpl. rewrite Hk in Hx. injection Hx as <-. congruence.
    + symmetry. apply map_lookup_filter_Some. split; [done|]. exact Hv.
  - symmetry. apply map_lookup_filter_None. by left.
Qed.

Lemma DeleteExpired_valid c now : valid_cache c -> valid_cache (DeleteExpired c now).
Proof.
  intros Hc k item. rewrite lookup_DeleteExpired.
  destruct (items c !! k) as [v|] eqn:Hk; [|done].
  destruct (expired now v); [done|]. intros [= <-]. by apply (Hc k).
Qed.

Lemma valid_cache_empty interval : valid_cache (New interval).
Proof. intros k item. unfold New; simpl. by rewrite lookup_empty. Qed.

Lemma valid_cache_insert m interval k item :
  valid_item item -> valid_cache (mkCache m interval) ->
  valid_cache (mkCache (<[k := item]> m) interval).
Proof.
  intros Hi Hc j it; simpl. destruct (decide (k = j)) as [->|Hne].
  - rewrite lookup_insert_eq. by intros [= <-].
  - rewrite lookup_insert_ne by done. apply (Hc j).
Qed.

(** ** Sequences of calls *)

Section CodecFacts.

Context {T : Type}.
Context (json_Marshal : T -> bytes + error).
Context (json_Unmarshal : bytes -> T -> T * option error).

Lemma SetWithExpiration_ok c now created k (v : value T) duration b :
  encode json_Marshal v = inl b ->
  SetWithExpiration json_Marshal c now created k v duration =
  (mkCache (<[k := mkItem b (expiration_of now duration) created]> (items c))
           (cleanupInterval c), None).
Proof. unfold SetWithExpiration. by intros ->. Qed.

Lemma SetWithExpiration_error c now created k (v : value T) duration e :
  encode json_Marshal v = inr e ->
  SetWithExpiration json_Marshal c now created k v duration = (c, Some e).
Proof. unfold SetWithExpiration. by intros ->. Qed.

Lemma SetWithExpiration_success_inv c now created k (v : value T) duration c' :
  SetWithExpiration json_Marshal c now created k v duration = (c', None) ->
  exists b, encode json_Marshal v = inl b /\
    c' = mkCache (<[k := mkItem b (expiration_of now duration) created]> (items c))
                 (cleanupInterval c).
Proof.
  unfold SetWithExpiration. destruct (encode json_Marshal v) as [b|e]; [|done].
  intros [= <-]. by exists b.
Qed.

Lemma SetWithExpiration_other c now created k (v : value T) duration j :
  k <> j ->
  items (fst (SetWithExpiration json_Marshal c now created k v duration)) !! j
  = items c !! j.
Proof.
  intros Hne. unfold SetWithExpiration.
  destruct (encode json_Marshal v); simpl; [|done]. by rewrite lookup_insert_ne.
Qed.

(** Only string and byte values are stored without the collaborator, and
    they cannot fail. *)
Lemma encode_error (v : value T) e :
  encode json_Marshal v = inr e <-> exists x, v = VOther x /\ json_Marshal x = inr e.
Proof.
  destruct v as [b|s|x]; simpl.
  - split; [done|]. by intros (x & ? & _).
  - split; [done|]. by intros (x & ? & _).
  - split; [intros H; by exists x|]. by intros (y & [= <-] & H).
Qed.

(** A call that is not a [Delete], a [Flush] or a [Set] of [k] leaves a
    never-expiring entry of [k] in place. *)
Lemma exec_untouched c (step : Z * op T) k item :
  touches k (snd step) = false ->
  items c !! k = Some item -> Expiration item = 0 ->
  items (exec json_Marshal c step) !! k = Some item.
Proof.
  destruct step as [now o]. unfold exec, touches, snd. intros Ht Hk Hz.
  destruct o as [created key v duration|key| |].
  - apply bool_decide_eq_false in Ht.
    by rewrite SetWithExpiration_other.
  - apply bool_decide_eq_false in Ht. unfold Delete; simpl.
    by rewrite lookup_delete_ne.
  - done.
  - rewrite lookup_DeleteExpired, Hk. by rewrite (expired_never now item Hz).
Qed.

Lemma run_untouched (trace : list (Z * op T)) : forall c k item,
  untouched k trace ->
  items c !! k = Some item -> Expiration item = 0 ->
  items (run json_Marshal c trace) !! k = Some item.
Proof.
  unfold run, untouched.
  induction trace as [|step trace IH]; intros c k item Hu Hk Hz; simpl.
  - done.
  - inversion Hu as [|? ? Hstep Hrest]; subst.
    apply IH; [done| |done]. by apply exec_untouched.
Qed.

Lemma run_cleanupInterval (trace : list (Z * op T)) : forall c,
  cleanupInterval (run json_Marshal c trace) = cleanupInterval c.
Proof.
  unfold run. induction trace as [|[now o] trace IH]; intros c; simpl; [done|].
  rewrite IH. destruct o as [created key v duration|key| |]; simpl; try done.
  unfold SetWithExpiration. by destruct (encode json_Marshal v).
Qed.

(** Well-formedness is an invariant of the calls, as long as the clock
    and the deadlines fit. *)
Lemma exec_valid c (step : Z * op T) :
  fits step -> valid_cache c -> valid_cache (exec json_Marshal c step).
Proof.
  destruct step as [now o]. unfold fits, exec, fst, snd. intros [Hnow Hfit] Hc.
  destruct o as [created key v duration|key| |].
  - unfold SetWithExpiration. destruct (encode json_Marshal v) as [b|e]; [|done].
    simpl. destruct c as [m interval]. apply valid_cache_insert; [|done].
    unfold valid_item; simpl. destruct (Z.le_gt_cases duration 0) as [Hle|Hgt].
    + rewrite expiration_of_no_ttl by done. unfold int64_max. lia.
    + destruct Hnow as [Hlo Hhi].
      rewrite expiration_of_ttl by (try apply Hfit; lia).
      split; [lia|]. apply Hfit. lia.
  - intros k item. unfold Delete; simpl. intros Hk.
    apply lookup_delete_Some in Hk as [_ Hk]. by apply (Hc k).
  - intros k item. unfold Flush; simpl. by rewrite lookup_empty.
  - by apply DeleteExpired_valid.
Qed.

Lemma run_valid (trace : list (Z * op T)) : forall c,
  Forall fits trace -> valid_cache c -> valid_cache (run json_Marshal c trace).
Proof.
  unfold run. induction trace as [|step trace IH]; intros c Hf Hc; simpl; [done|].
  inversion Hf as [|? ? Hstep Hrest]; subst.
  apply IH; [done|]. by apply exec_valid.
Qed.

Lemma run_New_valid interval (trace : list (Z * op T)) :
  Forall fits trace -> valid_cache (run json_Marshal (New interval) trace).
Proof. intros Hf. apply run_valid; [done|]. apply valid_cache_empty. Qed.

(** The answers of the read path on a live entry. *)
Lemma GetBytes_live c now k item :
  items c !! k = Some item -> expired now item = false ->
  GetBytes c now k = (Value item, true).
Proof. unfold GetBytes. by intros -> ->. Qed.

Lemma Get_live c now k item (tgt : target T) :
  items c !! k = Some item -> expired now item = false ->
  Get json_Unmarshal c now k tgt =
  match tgt with
  | TNil => (true, None, TNil)
  | TStringPtr _ => (true, None, TStringPtr (string_of_list_byte (Value item)))
  | TOther old =>
      (true, snd (json_Unmarshal (Value item) old),
       TOther (fst (json_Unmarshal (Value item) old)))
  end.
Proof.
  intros Hk He. unfold Get. rewrite (GetBytes_live c now k item Hk He); simpl.
  destruct tgt as [|old|old]; try done. by destruct (json_Unmarshal (Value item) old).
Qed.

End CodecFacts.

Lemma example_cache_valid : valid_cache example_cache.
Proof.
  apply run_New_valid. unfold example_trace.
  repeat constructor; simpl; unfold int64_max; lia.
Qed.

(** ** [DeleteExpired] *)

(** C2, as stated, fails at the boundary: an entry whose deadline is the
    very instant of the sweep is nonzero and [<= now], and the loop keeps
    it (line 180 tests [now > v.Expiration]). *)
Lemma DeleteExpired_keeps_deadline_now :
  let item := mkItem [] 5 0 in
  let c := mkCache {[ "k"%string := item ]} 0 in
  items c !! "k"%string = Some item /\
  Expiration item <> 0 /\ Expiration item <= 5 /\
  items (DeleteExpired c 5) !! "k"%string = Some item.
Proof.
  intros item c. split; [apply lookup_singleton_eq|].
  split; [simpl; lia|]. split; [simpl; lia|].
  rewrite lookup_DeleteExpired. unfold c; simpl. by rewrite lookup_singleton_eq.
Qed.

(** C2 (amended): in a well-formed cache, for every instant [now],
    [DeleteExpired] removes exactly the entries whose deadline is nonzero
    and strictly before [now]; every other entry (never expiring, expiring
    later, or expiring exactly at [now]) is left as it was, no entry
    appears, and nothing else of the cache changes. *)
Theorem DeleteExpired_exact (c : Cache) (now : Z) :
  valid_cache c ->
  (forall k item, items c !! k = Some item ->
     (items (DeleteExpired c now) !! k = None <->
        Expiration item <> 0 /\ Expiration item < now) /\
     (~ (Expiration item <> 0 /\ Expiration item < now) ->
        items (DeleteExpired c now) !! k = Some item)) /\
  (forall k, items c !! k = None -> items (DeleteExpired c now) !! k = None) /\
  cleanupInterval (DeleteExpired c now) = cleanupInterval c.
Proof.
  intros Hc. split; [|split; [|done]].
  - intros k item Hk. rewrite lookup_DeleteExpired, Hk.
    pose proof (expired_valid now item (Hc k item Hk)) as Hexp.
    destruct (expired now item) eqn:He.
    + assert (Expiration item <> 0 /\ now > Expiration item) by (by apply Hexp).
      split; [split; [intros _; lia | done]|]. intros Hn. exfalso. apply Hn. lia.
    + split; [|done]. split; [done|]. intros [Hnz Hlt].
      assert (false = true) by (apply Hexp; lia). done.
  - intros k Hk. by rewrite lookup_DeleteExpired, Hk.
Qed.

Lemma DeleteExpired_exact_witness :
  items (DeleteExpired example_cache 1400) !! "temporary"%string = None /\
  items (DeleteExpired example_cache 1300) !! "temporary"%string =
    Some (mkItem (list_byte_of_string "soon") 1300 1000) /\
  items (DeleteExpired example_cache 1400) !! "forever"%string =
    Some (mkItem (list_byte_of_string "value") 0 1001).
Proof.
  split; [|split].
  - destruct (DeleteExpired_exact example_cache 1400 example_cache_valid)
      as [Hsome _].
    apply (Hsome "temporary"%string
             (mkItem (list_byte_of_string "soon") 1300 1000)).
    + vm_compute. reflexivity.
    + simpl. lia.
  - destruct (DeleteExpired_exact example_cache 1300 example_cache_valid)
      as [Hsome _].
    apply (Hsome "temporary"%string
             (mkItem (list_byte_of_string "soon") 1300 1000)).
    + vm_compute. reflexivity.
    + simpl. lia.
  - destruct (DeleteExpired_exact example_cache 1400 example_cache_valid)
      as [Hsome _].
    apply (Hsome "forever"%string
             (mkItem (list_byte_of_string "value") 0 1001)).
    + vm_compute. reflexivity.
    + simpl. lia.
Defined.

(** ** The read path *)

Lemma Exists_GetBytes c now k : Exists c now k = snd (GetBytes c now k).
Proof.
  unfold Exists, GetBytes. destruct (items c !! k) as [item|]; [|done].
  by destruct (expired now item).
Qed.

Lemma GetBytes_found c now k b :
  GetBytes c now k = (b, true) <->
  exists item, items c !! k = Some item /\ expired now item = false /\ b = Value item.
Proof.
  unfold GetBytes. destruct (items c !! k) as [item|] eqn:Hk.
  - destruct (expired now item) eqn:He.
    + split; [done|]. intros (it & [= <-] & Hn & _). congruence.
    + split.
      * intros [= <-]. by exists item.
      * intros (it & [= <-] & _ & ->). done.
  - split; [done|]. by intros (it & ? & _).
Qed.

Lemma GetBytes_not_found c now k :
  snd (GetBytes c now k) = false <->
  items c !! k = None \/
  exists item, items c !! k = Some item /\ expired now item = true.
Proof.
  unfold GetBytes. destruct (items c !! k) as [item|] eqn:Hk.
  - destruct (expired now item) eqn:He; simpl.
    + split; [|done]. intros _. right. by exists item.
    + split; [done|]. intros [?|(it & [= <-] & ?)]; congruence.
  - split; [|done]. by left.
Qed.

(** In a well-formed cache, for every key [k] and instant [now],
    [GetBytes] reports [found = false], and [Exists] returns [false], if and
    only if [k] is absent from the map, or present with a nonzero deadline
    that [now] has passed ([now > Expiration]); a present entry whose
    deadline has passed is answered exactly like an absent key, and the two
    methods apply the same test. *)
Theorem GetBytes_Exists_expiration (c : Cache) (now : Z) (k : string) :
  valid_cache c ->
  let gone :=
    items c !! k = None \/
    exists item, items c !! k = Some item /\
                 Expiration item <> 0 /\ now > Expiration item in
  (snd (GetBytes c now k) = false <-> gone) /\
  (Exists c now k = false <-> gone) /\
  (gone -> GetBytes c now k = ([], false)) /\
  Exists c now k = snd (GetBytes c now k).
Proof.
  intros Hc gone.
  assert (Hiff : snd (GetBytes c now k) = false <-> gone).
  { rewrite GetBytes_not_found. unfold gone. split.
    - intros [Hn|(item & Hk & He)]; [by left|]. right. exists item.
      split; [done|]. by apply (expired_valid now item (Hc k item Hk)).
    - intros [Hn|(item & Hk & Hnz & Hgt)]; [by left|]. right. exists item.
      split; [done|]. by apply (expired_valid now item (Hc k item Hk)). }
  split; [exact Hiff|]. split; [by rewrite Exists_GetBytes|].
  split; [|apply Exists_GetBytes].
  intros Hg. apply Hiff in Hg. revert Hg. unfold GetBytes.
  destruct (items c !! k) as [item|]; [|done].
  by destruct (expired now item).
Qed.

Lemma GetBytes_Exists_expiration_witness :
  items example_cache !! "temporary"%string =
    Some (mkItem (list_byte_of_string "soon") 1300 1000) /\
  GetBytes example_cache 1301 "temporary"%string = ([], false) /\
  Exists example_cache 1301 "temporary"%string = false.
Proof.
  assert (Hk : items example_cache !! "temporary"%string =
               Some (mkItem (list_byte_of_string "soon") 1300 1000))
    by (vm_compute; reflexivity).
  destruct (GetBytes_Exists_expiration example_cache 1301 "temporary"%string
              example_cache_valid) as (_ & He & Hg & _).
  assert (Hgone : items example_cache !! "temporary"%string = None \/
                  exists it, items example_cache !! "temporary"%string = Some it /\
                             Expiration it <> 0 /\ 1301 > Expiration it).
  { right. eexists. split; [exact Hk|]. simpl. lia. }
  split; [exact Hk|]. split; [by apply Hg | by apply He].
Defined.

(** C3 (what the code does): the cache reached from [New] by
    [SetWithExpiration("k", "v", math.MaxInt64)] at the clock reading [t0]
    holds "k" with a deadline that is not zero and that the clock reading
    [t0 + 1] has passed (the sum of line 71 has wrapped around to a
    negative number); [GetBytes] and [Exists] find the key all the same,
    because lines 96 and 152 ask for [Expiration > 0], while [TTL], which
    compares with 0 for equality, says "key expired". *)
Theorem GetBytes_Exists_after_overflow :
  let c := (SetWithExpiration demo_Marshal (New 0) t0 t0 "k"%string
              (VString "v"%string) int64_max).1 in
  let now := t0 + 1 in
  exists item,
    items c !! "k"%string = Some item /\
    Expiration item <> 0 /\ now > Expiration item /\
    GetBytes c now "k"%string = (list_byte_of_string "v", true) /\
    Exists c now "k"%string = true /\
    TTL c now "k"%string = (0, Some KeyExpired).
Proof.
  intros c now.
  exists (mkItem (list_byte_of_string "v") (t0 + int64_max - 2 ^ 64) t0).
  split; [vm_compute; reflexivity|]. split; [vm_compute; discriminate|].
  split; [vm_compute; reflexivity|]. split; [vm_compute; reflexivity|].
  split; vm_compute; reflexivity.
Qed.

(** ** [TTL] *)

(** C5: at every instant [now], [TTL] fails with KeyNotFound on an absent
    key; returns the value for "infinite", with no error, on a key that
    never expires; fails with KeyExpired, which is not KeyNotFound, on a key
    whose nonzero deadline [now] has passed; and otherwise returns
    [Expiration - now] (the [int64] difference, which is the exact one for a
    well-formed entry and a clock reading after the epoch). *)
Theorem TTL_cases (c : Cache) (now : Z) (k : string) :
  (items c !! k = None -> TTL c now k = (0, Some KeyNotFound)) /\
  (forall item, items c !! k = Some item -> Expiration item = 0 ->
     TTL c now k = (-1, None)) /\
  (forall item, items c !! k = Some item ->
     Expiration item <> 0 -> now > Expiration item ->
     TTL c now k = (0, Some KeyExpired)) /\
  (forall item, items c !! k = Some item ->
     Expiration item <> 0 -> now <= Expiration item ->
     TTL c now k = (wrap64 (Expiration item - now), None) /\
     (valid_item item -> valid_clock now ->
      TTL c now k = (Expiration item - now, None))) /\
  KeyExpired <> KeyNotFound.
Proof.
  unfold TTL.
  split; [by intros ->|]. split; [|split; [|split; [|done]]].
  - intros item -> ->. done.
  - intros item -> Hnz Hgt.
    rewrite (proj2 (Z.eqb_neq _ _) Hnz).
    assert (Hlt : Expiration item < now) by lia.
    by rewrite (proj2 (Z.ltb_lt _ _) Hlt).
  - intros item Hk Hnz Hle. rewrite Hk.
    rewrite (proj2 (Z.eqb_neq _ _) Hnz).
    rewrite (proj2 (Z.ltb_ge _ _) Hle).
    split; [done|]. intros [_ Hmax] [Hnow _].
    rewrite wrap64_id; [done|].
    unfold int64_range, int64_min, int64_max in *. lia.
Qed.

Lemma TTL_cases_witness :
  TTL example_cache 1100 "temporary"%string = (200, None) /\
  TTL example_cache 1100 "absent"%string = (0, Some KeyNotFound).
Proof.
  split.
  - destruct (TTL_cases example_cache 1100 "temporary"%string)
      as (_ & _ & _ & Hlive & _).
    destruct (Hlive (mkItem (list_byte_of_string "soon") 1300 1000)) as [_ Hexact].
    + vm_compute. reflexivity.
    + simpl. lia.
    + simpl. lia.
    + apply Hexact; unfold valid_item, valid_clock, int64_max; simpl; lia.
  - destruct (TTL_cases example_cache 1100 "absent"%string) as (Habs & _).
    apply Habs. vm_compute. reflexivity.
Defined.

Lemma TTL_no_error c now k d :
  TTL c now k = (d, None) ->
  exists item, items c !! k = Some item /\
    (Expiration item = 0 /\ d = -1 \/
     Expiration item <> 0 /\ now <= Expiration item /\
       d = wrap64 (Expiration item - now)).
Proof.
  unfold TTL. destruct (items c !! k) as [item|]; [|done].
  exists item. split; [done|].
  destruct (Z.eqb_spec (Expiration item) 0) as [Hz|Hnz].
  - left. split; [done|]. congruence.
  - destruct (Z.ltb_spec (Expiration item) now) as [Hlt|Hge]; [done|].
    right. split; [done|]. split; [done|]. congruence.
Qed.

(** C9: for a key stored with the zero deadline, [TTL] returns the duration
    [-1] and a nil error at every instant; and among the answers without an
    error, in a well-formed cache, the negative ones are exactly those for
    keys that never expire. *)
Theorem TTL_infinite (c : Cache) (now : Z) (k : string) (item : Item) :
  items c !! k = Some item -> Expiration item = 0 ->
  TTL c now k = (-1, None) /\
  (forall c' now' k' d,
      valid_cache c' -> valid_clock now' -> TTL c' now' k' = (d, None) ->
      (d < 0 <-> exists item', items c' !! k' = Some item' /\ Expiration item' = 0)).
Proof.
  intros Hk Hz. split; [unfold TTL; by rewrite Hk, Hz|].
  intros c' now' k' d Hc [Hnow _] Hd.
  destruct (TTL_no_error c' now' k' d Hd) as (item' & Hk' & Hcase).
  destruct (Hc k' item' Hk') as [Hlo Hhi].
  split.
  - intros Hneg. exists item'. split; [done|].
    destruct Hcase as [[? _]|(Hnz & Hle & ->)]; [done|].
    rewrite wrap64_id in Hneg; [lia|].
    unfold int64_range, int64_min, int64_max in *. lia.
  - intros (it & Hit & Hit0). rewrite Hk' in Hit. injection Hit as <-.
    destruct Hcase as [[_ ->]|(Hnz & _)]; [lia|done].
Qed.

Lemma TTL_infinite_witness :
  TTL (mkCache {[ "forever"%string := mkItem [] 0 7 ]} 0) 5 "forever"%string = (-1, None).
Proof.
  apply (TTL_infinite (mkCache {[ "forever"%string := mkItem [] 0 7 ]} 0) 5
           "forever"%string (mkItem [] 0 7)).
  - apply lookup_singleton_eq.
  - reflexivity.
Defined.

(** ** [Count] *)

Lemma Exists_live c now k :
  Exists c now k = true <-> is_Some (filter (live now) (items c) !! k).
Proof.
  unfold Exists. destruct (items c !! k) as [item|] eqn:Hk.
  - destruct (expired now item) eqn:He.
    + split; [done|]. intros [x Hx].
      apply map_lookup_filter_Some in Hx as [Hx Hl]. unfold live in Hl; simpl in Hl.
      rewrite Hk in Hx. injection Hx as <-. congruence.
    + split; [|done]. intros _. exists item. by apply map_lookup_filter_Some.
  - split; [done|]. intros [x Hx].
    apply map_lookup_filter_Some in Hx as [Hx _]. congruence.
Qed.

Lemma size_live_expired now (m : gmap string Item) :
  size m = (size (filter (live now) m) + size (filter (fun kv => ~ live now kv) m))%nat.
Proof.
  rewrite <- (map_filter_union_complement (live now) m) at 1.
  apply map_size_disj_union, map_disjoint_filter_complement.
Qed.

(** C8: [Count] is the number of entries of the map. At every instant it
    is the number of keys for which [Exists] is true plus the number of
    entries whose deadline has passed and that no [DeleteExpired], [Delete]
    or [Flush] has removed; so one such entry makes [Count] exceed the
    number of keys that exist, and [DeleteExpired] brings it down to it. *)
Theorem Count_includes_expired (c : Cache) (now : Z) :
  let alive := filter (live now) (items c) in
  let lapsed := filter (fun kv => ~ live now kv) (items c) in
  Count c = Z.of_nat (size (items c)) /\
  Count c = Z.of_nat (size alive) + Z.of_nat (size lapsed) /\
  (forall k, Exists c now k = true <-> is_Some (alive !! k)) /\
  (forall k item, items c !! k = Some item -> expired now item = true ->
     Exists c now k = false /\ Z.of_nat (size alive) < Count c) /\
  Count (DeleteExpired c now) = Z.of_nat (size alive).
Proof.
  intros alive lapsed. unfold Count.
  pose proof (size_live_expired now (items c)) as Hsplit.
  fold alive lapsed in Hsplit.
  split; [done|]. split; [lia|]. split; [apply Exists_live|]. split.
  - intros k item Hk He. split.
    + unfold Exists. by rewrite Hk, He.
    + assert (Hin : lapsed !! k = Some item).
      { apply map_lookup_filter_Some. split; [done|].
        unfold live; simpl. congruence. }
      assert (size lapsed <> 0%nat).
      { apply (map_size_ne_0_lookup_2 lapsed k). by exists item. }
      lia.
  - by rewrite DeleteExpired_filter.
Qed.

Lemma Count_includes_expired_witness :
  let item := mkItem [] 3 0 in
  let c := mkCache {[ "k"%string := item ]} 0 in
  Exists c 5 "k"%string = false /\
  Z.of_nat (size (filter (live 5) (items c))) < Count c.
Proof.
  intros item c.
  destruct (Count_includes_expired c 5) as (_ & _ & _ & Hgap & _).
  apply (Hgap "k"%string item); [apply lookup_singleton_eq | reflexivity].
Defined.

(** ** Writing and reading back *)

Section CodecClaims.

Context {T : Type}.
Context (json_Marshal : T -> bytes + error).
Context (json_Unmarshal : bytes -> T -> T * option error).

(** C6: [SetWithExpiration] returns an error exactly when the value cannot
    be encoded, which only a value handed to [json.Marshal] can cause, and
    then the cache it leaves is the cache it was given; otherwise it
    returns no error and the cache differs from the one it was given in the
    entry of [key] alone, which is the whole new entry. [Set] is the same
    call with the duration 0. *)
Theorem SetWithExpiration_all_or_nothing (c : Cache) (now created : Z)
    (k : string) (v : value T) (duration : Z) :
  let r := SetWithExpiration json_Marshal c now created k v duration in
  (forall e, snd r = Some e <-> encode json_Marshal v = inr e) /\
  (forall e, snd r = Some e ->
     fst r = c /\ exists x, v = VOther x /\ json_Marshal x = inr e) /\
  (forall b, encode json_Marshal v = inl b ->
     snd r = None /\
     items (fst r) !! k = Some (mkItem b (expiration_of now duration) created) /\
     (forall j, j <> k -> items (fst r) !! j = items c !! j) /\
     cleanupInterval (fst r) = cleanupInterval c) /\
  Set_ json_Marshal c now created k v =
    SetWithExpiration json_Marshal c now created k v 0.
Proof.
  intros r. unfold r, Set_, SetWithExpiration.
  destruct (encode json_Marshal v) as [b|e0] eqn:Henc; simpl.
  - split; [intros e; split; congruence|]. split; [done|]. split; [|done].
    intros b' [= <-]. split; [done|]. split; [apply lookup_insert_eq|].
    split; [|done]. intros j Hj. by rewrite lookup_insert_ne.
  - split; [intros e; split; congruence|]. split; [|done].
    intros e [= <-]. split; [done|]. by apply encode_error.
Qed.

(** C7: a [SetWithExpiration] with a duration that is zero or negative
    stores the deadline 0; from then on, after any calls among which there
    is no [Delete] of the key, no [Flush] and no [Set] of the key, [Exists]
    is true and [TTL] is [-1] with no error at every instant, the instant of
    the write included. *)
Theorem SetWithExpiration_no_ttl (c c' : Cache) (now created : Z) (k : string)
    (v : value T) (duration : Z) :
  duration <= 0 ->
  SetWithExpiration json_Marshal c now created k v duration = (c', None) ->
  (exists b, encode json_Marshal v = inl b /\
             items c' !! k = Some (mkItem b 0 created)) /\
  Exists c' now k = true /\
  forall (trace : list (Z * op T)) (later : Z),
    untouched k trace ->
    (exists item, items (run json_Marshal c' trace) !! k = Some item /\
                  Expiration item = 0) /\
    Exists (run json_Marshal c' trace) later k = true /\
    TTL (run json_Marshal c' trace) later k = (-1, None).
Proof.
  intros Hd Hset.
  destruct (SetWithExpiration_success_inv _ _ _ _ _ _ _ _ Hset) as (b & Henc & ->).
  rewrite (expiration_of_no_ttl now duration Hd).
  set (item := mkItem b 0 created).
  set (c' := mkCache (<[k:=item]> (items c)) (cleanupInterval c)).
  assert (Hk : items c' !! k = Some item) by apply lookup_insert_eq.
  assert (Hlater : forall (trace : list (Z * op T)) later, untouched k trace ->
            (exists it, items (run json_Marshal c' trace) !! k = Some it /\
                        Expiration it = 0) /\
            Exists (run json_Marshal c' trace) later k = true /\
            TTL (run json_Marshal c' trace) later k = (-1, None)).
  { intros trace later Hu.
    assert (Hrun : items (run json_Marshal c' trace) !! k = Some item)
      by (by apply run_untouched).
    split; [by exists item|]. unfold Exists, TTL. rewrite Hrun.
    by rewrite (expired_never later item). }
  split; [by exists b|]. split; [|exact Hlater].
  apply (Hlater [] now). constructor.
Qed.

(** C10: [Get] with a nil target is an existence check: it returns the
    flag [Exists] returns, with no error, and looks at no target. So when
    the key is present and not expired it returns [(true, nil)], and when
    the key is absent, or present and expired, it returns [(false, nil)].
    The answer is the same for every decoder, also for one that fails on
    every input, so it carries no decode error. *)
Theorem Get_nil_target (c : Cache) (now : Z) (k : string) :
  Get json_Unmarshal c now k TNil = (Exists c now k, None, TNil) /\
  (forall item, items c !! k = Some item -> expired now item = false ->
     Get json_Unmarshal c now k TNil = (true, None, TNil)) /\
  (items c !! k = None \/
   (exists item, items c !! k = Some item /\ expired now item = true) ->
     Get json_Unmarshal c now k TNil = (false, None, TNil)) /\
  forall decoder : bytes -> T -> T * option error,
    Get decoder c now k TNil = Get json_Unmarshal c now k TNil.
Proof.
  assert (Hall : forall dec : bytes -> T -> T * option error,
            Get dec c now k TNil = (Exists c now k, None, TNil)).
  { intros dec. unfold Get. rewrite Exists_GetBytes.
    destruct (GetBytes c now k) as [b found]. by destruct found. }
  split; [apply Hall|]. split; [|split].
  - intros item Hk He. rewrite Hall. unfold Exists. by rewrite Hk, He.
  - intros Hgone. rewrite Hall. unfold Exists.
    destruct Hgone as [->|(item & -> & ->)]; done.
  - intros decoder. by rewrite !Hall.
Qed.

End CodecClaims.

Lemma SetWithExpiration_all_or_nothing_witness :
  let c := mkCache {[ "k"%string := mkItem [] 0 0 ]} 0 in
  SetWithExpiration demo_Marshal c 1 1 "k"%string (VOther DChan) 5 =
  (c, Some (json_error "json: unsupported type: chan int")).
Proof.
  intros c.
  destruct (SetWithExpiration_all_or_nothing demo_Marshal c 1 1 "k"%string
              (VOther DChan) 5) as (Herr & Hsame & _).
  assert (He : snd (SetWithExpiration demo_Marshal c 1 1 "k"%string (VOther DChan) 5)
               = Some (json_error "json: unsupported type: chan int")).
  { apply Herr. reflexivity. }
  destruct (Hsame _ He) as [Hc _].
  destruct (SetWithExpiration demo_Marshal c 1 1 "k"%string (VOther DChan) 5)
    as [c1 e1]; simpl in *. by subst.
Defined.

Lemma SetWithExpiration_no_ttl_witness :
  let c' := fst (SetWithExpiration demo_Marshal (New 0) 1 1 "k"%string
                   (VString "v"%string) (-3)) in
  let trace : list (Z * op demo) :=
    [(7, OpDeleteExpired); (8, OpDelete "other"%string)] in
  Exists (run demo_Marshal c' trace) 100 "k"%string = true /\
  TTL (run demo_Marshal c' trace) 100 "k"%string = (-1, None).
Proof.
  intros c' trace.
  assert (Hd : -3 <= 0) by lia.
  assert (Hset : SetWithExpiration demo_Marshal (New 0) 1 1 "k"%string
                   (VString "v"%string) (-3) = (c', None)) by reflexivity.
  destruct (SetWithExpiration_no_ttl demo_Marshal (New 0) c' 1 1 "k"%string
              (VString "v"%string) (-3) Hd Hset) as (_ & _ & Hlater).
  assert (Hu : untouched "k"%string trace).
  { unfold untouched, trace. repeat constructor. }
  destruct (Hlater trace 100 Hu) as (_ & He & Ht). by split.
Defined.

Lemma Get_nil_target_witness :
  let failing : bytes -> demo -> demo * option error :=
    fun _ old => (old, Some (json_error "unexpected end of JSON input")) in
  Get failing example_cache 1100 "temporary"%string TNil = (true, None, TNil) /\
  Get failing example_cache 1400 "temporary"%string TNil = (false, None, TNil) /\
  Get failing example_cache 1100 "absent"%string TNil = (false, None, TNil).
Proof.
  intros failing. split; [|split].
  - destruct (Get_nil_target failing example_cache 1100 "temporary"%string)
      as (_ & Hlive & _).
    apply (Hlive (mkItem (list_byte_of_string "soon") 1300 1000)).
    + vm_compute. reflexivity.
    + reflexivity.
  - destruct (Get_nil_target failing example_cache 1400 "temporary"%string)
      as (_ & _ & Hgone & _).
    apply Hgone. right.
    exists (mkItem (list_byte_of_string "soon") 1300 1000).
    split; [vm_compute; reflexivity | reflexivity].
  - destruct (Get_nil_target failing example_cache 1100 "absent"%string)
      as (_ & _ & Hgone & _).
    apply Hgone. left. vm_compute. reflexivity.
Defined.

Lemma cache_eq (c c' : Cache) :
  items c = items c' -> cleanupInterval c = cleanupInterval c' -> c = c'.
Proof. destruct c, c'; simpl. by intros -> ->. Qed.

(** ** The store with slices *)

Lemma Mem_expired_never now item :
  Mem.Expiration item = 0 -> Mem.expired now item = false.
Proof. unfold Mem.expired. by intros ->. Qed.

Lemma Mem_expired_view h now item :
  expired now (view_item h item) = Mem.expired now item.
Proof. done. Qed.

Lemma Mem_DeleteExpired_loop now (b m : gmap string Mem.Item) (j : string) :
  map_fold (Mem.DeleteExpired_body now) b m !! j =
  match m !! j with
  | Some v => if Mem.expired now v then None else b !! j
  | None => b !! j
  end.
Proof.
  revert j.
  apply (map_fold_weak_ind
           (fun r m => forall j, r !! j =
              match m !! j with
              | Some v => if Mem.expired now v then None else b !! j
              | None => b !! j
              end)).
  - intros j. by rewrite lookup_empty.
  - intros i x m' r Hfresh IH j. unfold Mem.DeleteExpired_body.
    destruct (decide (i = j)) as [->|Hne].
    + rewrite lookup_insert_eq. destruct (Mem.expired now x).
      * by rewrite lookup_delete_eq.
      * by rewrite IH, Hfresh.
    + rewrite lookup_insert_ne by done.
      destruct (Mem.expired now x); [rewrite lookup_delete_ne by done|]; apply IH.
Qed.

Lemma Mem_lookup_DeleteExpired st now k :
  Mem.items (Mem.cache (Mem.DeleteExpired st now)) !! k =
  match Mem.items (Mem.cache st) !! k with
  | Some v => if Mem.expired now v then None else Some v
  | None => None
  end.
Proof.
  unfold Mem.DeleteExpired; simpl. rewrite Mem_DeleteExpired_loop.
  destruct (Mem.items (Mem.cache st) !! k) as [v|]; [|done].
  by destruct (Mem.expired now v).
Qed.

(** *** Arrays *)

Lemma alloc_fresh (h : Mem.heap) : h !! fresh (dom h) = None.
Proof. apply not_elem_of_dom, is_fresh. Qed.

Lemma contents_alloc_new (h : Mem.heap) b :
  Mem.contents (Mem.alloc h b).1 (Mem.alloc h b).2 = b.
Proof.
  unfold Mem.alloc, Mem.contents; simpl. rewrite lookup_insert_eq; simpl.
  by rewrite take_ge.
Qed.

Lemma contents_alloc_old (h : Mem.heap) b s :
  Mem.allocated h s -> Mem.contents (Mem.alloc h b).1 s = Mem.contents h s.
Proof.
  destruct s as [|a off len]; [done|]. simpl. intros [l Hl].
  rewrite lookup_insert_ne; [done|]. intros Heq.
  pose proof (alloc_fresh h) as Hf. rewrite Heq in Hf. congruence.
Qed.

Lemma allocated_alloc_old (h : Mem.heap) b s :
  Mem.allocated h s -> Mem.allocated (Mem.alloc h b).1 s.
Proof.
  destruct s as [|a off len]; [done|]. simpl. intros [l Hl].
  destruct (decide (fresh (dom h) = a)) as [->|Hne].
  - rewrite lookup_insert_eq. eauto.
  - rewrite lookup_insert_ne by done. eauto.
Qed.

Lemma allocated_alloc_new (h : Mem.heap) b :
  Mem.allocated (Mem.alloc h b).1 (Mem.alloc h b).2.
Proof. unfold Mem.alloc; simpl. rewrite lookup_insert_eq. eauto. Qed.

Lemma alloc_spec (h h' : Mem.heap) b s :
  Mem.alloc h b = (h', s) ->
  Mem.contents h' s = b /\ Mem.allocated h' s /\
  forall s1, Mem.allocated h s1 ->
    Mem.allocated h' s1 /\ Mem.contents h' s1 = Mem.contents h s1.
Proof.
  intros Hal.
  pose proof (contents_alloc_new h b) as Hn.
  pose proof (allocated_alloc_new h b) as Han.
  rewrite Hal in Hn, Han. split; [done|]. split; [done|]. intros s1 H1.
  pose proof (allocated_alloc_old h b s1 H1) as Ho.
  pose proof (contents_alloc_old h b s1 H1) as Hc.
  by rewrite Hal in Ho, Hc.
Qed.

Lemma allocated_write (h : Mem.heap) a i x s :
  Mem.allocated h s -> Mem.allocated (Mem.write h a i x) s.
Proof.
  destruct s as [|a' off len]; [done|]. simpl. intros [l Hl].
  unfold Mem.write. destruct (h !! a) as [l'|] eqn:Ha; [|eauto].
  destruct (decide (a = a')) as [->|Hne].
  - rewrite lookup_insert_eq. eauto.
  - rewrite lookup_insert_ne by done. eauto.
Qed.

Lemma contents_write_other (h : Mem.heap) a i x a' off len :
  a <> a' ->
  Mem.contents (Mem.write h a i x) (Mem.mkSlice a' off len)
  = Mem.contents h (Mem.mkSlice a' off len).
Proof.
  intros Hne. unfold Mem.write, Mem.contents.
  destruct (h !! a) as [l|]; [|done]. by rewrite lookup_insert_ne.
Qed.

Section MemFacts.

Context {T : Type}.
Context (json_Marshal : T -> bytes + error).
Context (json_Unmarshal : bytes -> T -> T * option error).

Lemma Mem_encode_inv (h h' : Mem.heap) (v : Mem.value T) s :
  Mem.encode json_Marshal h v = inl (h', s) ->
  (forall s0, v = Mem.VBytes s0 -> Mem.allocated h s0) ->
  encode json_Marshal (view_value h v) = inl (Mem.contents h' s) /\
  Mem.allocated h' s /\
  (forall s0, v = Mem.VBytes s0 -> s = s0 /\ h' = h) /\
  (forall s1, Mem.allocated h s1 ->
     Mem.allocated h' s1 /\ Mem.contents h' s1 = Mem.contents h s1).
Proof.
  destruct v as [s0|str|x]; unfold Mem.encode, view_value, encode.
  - intros [= <- <-] Ha. split; [done|]. split; [by apply Ha|].
    split; [by intros ? [= <-]|done].
  - intros Heq _. assert (Hal : Mem.alloc h (list_byte_of_string str) = (h', s))
      by congruence.
    destruct (alloc_spec _ _ _ _ Hal) as (Hn & Han & Hold).
    rewrite Hn. split; [done|]. split; [done|]. split; [done|exact Hold].
  - destruct (json_Marshal x) as [b|e]; [|done].
    intros Heq _. assert (Hal : Mem.alloc h b = (h', s)) by congruence.
    destruct (alloc_spec _ _ _ _ Hal) as (Hn & Han & Hold).
    rewrite Hn. split; [done|]. split; [done|]. split; [done|exact Hold].
Qed.

Lemma Mem_encode_error (h : Mem.heap) (v : Mem.value T) e :
  Mem.encode json_Marshal h v = inr e <->
  encode json_Marshal (view_value h v) = inr e.
Proof.
  destruct v as [s0|str|x]; simpl;
    [split; discriminate | split; discriminate |].
  destruct (json_Marshal x); split; congruence.
Qed.

(** One step that is no [Delete], [Flush] or [Set] of [k] keeps a
    never-expiring entry of [k], with its slice; the bytes the slice shows
    stay unless the step writes into its array. *)
Lemma Mem_exec_keeps st (step : Z * Mem.op T) k item :
  Mem.touches k (snd step) = false ->
  Mem.items (Mem.cache st) !! k = Some item ->
  Mem.Expiration item = 0 ->
  Mem.allocated (Mem.mem st) (Mem.Value item) ->
  given_allocated_step (Mem.mem st) step ->
  let st' := Mem.exec json_Marshal st step in
  Mem.items (Mem.cache st') !! k = Some item /\
  Mem.allocated (Mem.mem st') (Mem.Value item) /\
  (Mem.writes_into (Mem.Value item) (snd step) = false ->
   Mem.contents (Mem.mem st') (Mem.Value item)
   = Mem.contents (Mem.mem st) (Mem.Value item)).
Proof.
  destruct step as [now o]. unfold Mem.exec, Mem.touches. cbn [fst snd].
  intros Ht Hk Hz Ha Hargs.
  destruct o as [created key v duration|key| | |b|a i x]; cbn zeta.
  - apply bool_decide_eq_false in Ht. unfold Mem.SetWithExpiration.
    destruct (Mem.encode json_Marshal (Mem.mem st) v) as [[h' s]|e] eqn:Henc;
      simpl; [|done].
    assert (Hv : forall s0, v = Mem.VBytes s0 -> Mem.allocated (Mem.mem st) s0).
    { intros s0 ->. by apply (Hargs created key s0 duration). }
    destruct (Mem_encode_inv _ _ _ _ Henc Hv) as (_ & _ & _ & Hold).
    destruct (Hold _ Ha) as [Ha' Hc'].
    rewrite lookup_insert_ne by done. done.
  - apply bool_decide_eq_false in Ht. simpl.
    by rewrite lookup_delete_ne.
  - done.
  - rewrite Mem_lookup_DeleteExpired, Hk, (Mem_expired_never now item Hz).
    done.
  - simpl. split; [done|].
    split; [by apply allocated_alloc_old|intros _; by apply contents_alloc_old].
  - simpl. split; [done|]. split; [by apply allocated_write|].
    destruct (Mem.Value item) as [|a' off len]; [done|].
    intros Hw. apply bool_decide_eq_false in Hw. by apply contents_write_other.
Qed.

Lemma Mem_run_keeps (trace : list (Z * Mem.op T)) : forall st k item,
  Mem.untouched k trace ->
  given_allocated json_Marshal st trace ->
  Mem.items (Mem.cache st) !! k = Some item ->
  Mem.Expiration item = 0 ->
  Mem.allocated (Mem.mem st) (Mem.Value item) ->
  let st' := Mem.run json_Marshal st trace in
  Mem.items (Mem.cache st') !! k = Some item /\
  (Mem.unwritten (Mem.Value item) trace ->
   Mem.contents (Mem.mem st') (Mem.Value item)
   = Mem.contents (Mem.mem st) (Mem.Value item)).
Proof.
  unfold Mem.run, Mem.untouched, Mem.unwritten.
  induction trace as [|step trace IH]; intros st k item Hu Hg Hk Hz Ha; simpl.
  - done.
  - inversion Hu as [|? ? Hstep Hrest]; subst.
    destruct Hg as [Hgstep Hgrest].
    destruct (Mem_exec_keeps st step k item Hstep Hk Hz Ha Hgstep)
      as (Hk' & Ha' & Hc').
    destruct (IH _ k item Hrest Hgrest Hk' Hz Ha') as [Hfin Hcont].
    split; [done|]. intros Hw. inversion Hw as [|? ? Hwstep Hwrest]; subst.
    rewrite (Hcont Hwrest). by apply Hc'.
Qed.

(** *** The two stores *)

(** The readers of the store with slices answer as the readers of the
    store of the first part do on its view. *)
Lemma view_lookup st k :
  items (view st) !! k = view_item (Mem.mem st) <$> Mem.items (Mem.cache st) !! k.
Proof. unfold view; simpl. by rewrite lookup_fmap. Qed.

Lemma view_GetBytes st now k :
  GetBytes (view st) now k =
  (Mem.contents (Mem.mem st) (Mem.GetBytes st now k).1, (Mem.GetBytes st now k).2).
Proof.
  unfold GetBytes, Mem.GetBytes. rewrite view_lookup.
  destruct (Mem.items (Mem.cache st) !! k) as [item|]; simpl; [|done].
  rewrite Mem_expired_view. by destruct (Mem.expired now item).
Qed.

Lemma view_Get st now k (tgt : target T) :
  Get json_Unmarshal (view st) now k tgt = Mem.Get json_Unmarshal st now k tgt.
Proof.
  unfold Get, Mem.Get. rewrite view_GetBytes.
  by destruct (Mem.GetBytes st now k) as [s found].
Qed.

Lemma view_GetString st now k :
  GetString (view st) now k = Mem.GetString st now k.
Proof.
  unfold GetString, Mem.GetString. rewrite view_GetBytes.
  by destruct (Mem.GetBytes st now k) as [s found].
Qed.

Lemma view_Delete st k : view (Mem.Delete st k) = Delete (view st) k.
Proof. apply cache_eq; [|done]. unfold view; simpl. apply fmap_delete. Qed.

Lemma view_Flush st : view (Mem.Flush st) = Flush (view st).
Proof. apply cache_eq; [|done]. unfold view; simpl. apply fmap_empty. Qed.

Lemma view_DeleteExpired st now :
  view (Mem.DeleteExpired st now) = DeleteExpired (view st) now.
Proof.
  apply cache_eq; [|done]. apply map_eq. intros k.
  rewrite lookup_DeleteExpired, !view_lookup, Mem_lookup_DeleteExpired.
  destruct (Mem.items (Mem.cache st) !! k) as [item|]; simpl; [|done].
  rewrite Mem_expired_view. by destruct (Mem.expired now item).
Qed.

(** A write of [Set] is the write of the first part, with the bytes the
    slice shows when the call is made. *)
Lemma view_SetWithExpiration st now created k (v : Mem.value T) duration :
  allocated_cache st ->
  (forall s0, v = Mem.VBytes s0 -> Mem.allocated (Mem.mem st) s0) ->
  let r := Mem.SetWithExpiration json_Marshal st now created k v duration in
  (view r.1, r.2) =
  SetWithExpiration json_Marshal (view st) now created k
    (view_value (Mem.mem st) v) duration.
Proof.
  intros Hst Hv r. unfold r, Mem.SetWithExpiration, SetWithExpiration.
  destruct (Mem.encode json_Marshal (Mem.mem st) v) as [[h' s]|e] eqn:Henc.
  - destruct (Mem_encode_inv _ _ _ _ Henc Hv) as (Hpure & _ & _ & Hold).
    rewrite Hpure. simpl. f_equal. apply cache_eq; [|done]. simpl.
    rewrite fmap_insert. unfold view_item at 1; simpl. f_equal.
    apply map_fmap_ext. intros j item Hj. unfold view_item. f_equal.
    by destruct (Hold _ (Hst j item Hj)).
  - apply Mem_encode_error in Henc. by rewrite Henc.
Qed.

(** A write by a holder of a slice changes the view only in the entries
    whose slice is a slice of the array written. *)
Lemma view_write st a i x :
  (forall k item, Mem.items (Mem.cache st) !! k = Some item ->
     Mem.writes_into (T := T) (Mem.Value item) (Mem.OpWrite a i x) = false) ->
  view (Mem.mkState (Mem.write (Mem.mem st) a i x) (Mem.cache st)) = view st.
Proof.
  intros Hw. apply cache_eq; [|done]. unfold view; simpl.
  apply map_fmap_ext. intros j item Hj. unfold view_item. f_equal.
  specialize (Hw j item Hj). simpl in Hw.
  destruct (Mem.Value item) as [|a' off len]; [done|].
  apply bool_decide_eq_false in Hw. by apply contents_write_other.
Qed.

End MemFacts.


Section MemClaims.

Context {T : Type}.
Context (json_Marshal : T -> bytes + error).
Context (json_Unmarshal : bytes -> T -> T * option error).


End MemClaims.


(** ** Stopping the janitor *)

Lemma two_stops_inv_step interval s s' :
  0 < interval -> two_stops_inv interval s -> Janitor.step s s' ->
  two_stops_inv interval s'.
Proof.
  intros Hpos [Hint Hpc] Hstep. unfold two_stops_inv.
  inversion Hstep as [c j rest Hc|c j rest Hc|c rest|c now p]; subst; simpl in *.
  - split; [done|].
    destruct Hpc as [[-> [Hp|Hp]]|[-> [Hp|Hp]]]; inversion Hp; subst; auto.
  - lia.
  - split; [done|].
    destruct Hpc as [[_ [Hp|Hp]]|[Hj _]]; [done| |done].
    inversion Hp; subst. right. auto.
  - split; [done|]. destruct Hpc as [[_ Hp]|[Hj _]]; [|done]. left. auto.
Qed.

Lemma two_stops_inv_reachable interval s s' :
  0 < interval -> two_stops_inv interval s -> Janitor.reachable s s' ->
  two_stops_inv interval s'.
Proof.
  intros Hpos Hinv Hreach. unfold Janitor.reachable in Hreach.
  induction Hreach as [s|s1 s2 s3 Hstep _ IH]; [done|].
  apply IH. by apply (two_stops_inv_step interval s1).
Qed.

Lemma Janitor_New_positive interval calls :
  0 < interval ->
  Janitor.New interval calls =
  Janitor.mkSystem (New interval) Janitor.Selecting (Janitor.after_call calls).
Proof.
  intros Hpos. unfold Janitor.New. by rewrite (proj2 (Z.ltb_lt _ _) Hpos).
Qed.

Lemma Janitor_New_not_positive interval calls :
  interval <= 0 ->
  Janitor.New interval calls =
  Janitor.mkSystem (New interval) Janitor.NotStarted (Janitor.after_call calls).
Proof.
  intros Hle. unfold Janitor.New. by rewrite (proj2 (Z.ltb_ge _ _) Hle).
Qed.

(** With no janitor ([cleanupInterval <= 0]) every call of [StopJanitor]
    skips the send and returns. *)
Lemma StopJanitor_never_started interval (calls : nat) :
  interval <= 0 ->
  Janitor.reachable (Janitor.New interval calls)
    (Janitor.mkSystem (New interval) Janitor.NotStarted Janitor.Finished).
Proof.
  intros Hle. rewrite Janitor_New_not_positive by done.
  unfold Janitor.reachable.
  induction calls as [|n IH]; simpl; [apply rtc_refl|].
  eapply rtc_l; [|exact IH]. by apply Janitor.step_guard_skip.
Qed.

(** In such a run the caller is never in the send. *)
Lemma no_janitor_no_send c p s :
  cleanupInterval c <= 0 ->
  (forall rest, p <> Janitor.Sending rest) ->
  Janitor.reachable (Janitor.mkSystem c Janitor.NotStarted p) s ->
  cleanupInterval (Janitor.cache s) = cleanupInterval c /\
  Janitor.jan s = Janitor.NotStarted /\
  forall rest, Janitor.call s <> Janitor.Sending rest.
Proof.
  intros Hle Hp Hreach. unfold Janitor.reachable in Hreach.
  remember (Janitor.mkSystem c Janitor.NotStarted p) as s0 eqn:Hs0.
  revert p Hp Hs0.
  induction Hreach as [s|s1 s2 s3 Hstep _ IH]; intros p Hp ->.
  - simpl. auto.
  - inversion Hstep as [c1 j rest Hc|c1 j rest Hc| |]; subst.
    + lia.
    + apply (IH (Janitor.after_call rest)); [|done].
      intros r. by destruct rest.
Qed.

Lemma StopJanitor_never_started_no_send interval (calls : nat) s :
  interval <= 0 ->
  Janitor.reachable (Janitor.New interval calls) s ->
  Janitor.jan s = Janitor.NotStarted /\
  forall rest, Janitor.call s <> Janitor.Sending rest.
Proof.
  intros Hle Hreach. rewrite Janitor_New_not_positive in Hreach by done.
  apply no_janitor_no_send in Hreach; [tauto|done|].
  intros rest. by destruct calls.
Qed.

(** The first call on a running janitor hands over its value and
    returns, and the janitor returns with it. *)
Lemma StopJanitor_running interval :
  0 < interval ->
  Janitor.reachable (Janitor.New interval 1)
    (Janitor.mkSystem (New interval) Janitor.Returned Janitor.Finished).
Proof.
  intros Hpos. rewrite Janitor_New_positive by done. simpl.
  eapply rtc_l; [by apply Janitor.step_guard_send|].
  eapply rtc_l; [apply (Janitor.step_stop _ 0)|]. apply rtc_refl.
Qed.

(** C1 (what the code does): for a positive interval, a second call of
    [StopJanitor] never returns. The run reaches the state in which the
    janitor has returned and the caller is in the send of line 205; no
    goroutine can move in that state; and no state of the run has the
    second call returned. *)
Theorem StopJanitor_twice_blocks (interval : Z) :
  0 < interval ->
  let s0 := Janitor.New interval 2 in
  let blocked :=
    Janitor.mkSystem (New interval) Janitor.Returned (Janitor.Sending 0) in
  Janitor.reachable s0 blocked /\
  Janitor.stuck blocked /\
  forall s, Janitor.reachable s0 s -> Janitor.call s <> Janitor.Finished.
Proof.
  intros Hpos s0 blocked. unfold s0. rewrite Janitor_New_positive by done.
  simpl. split; [|split].
  - eapply rtc_l; [by apply Janitor.step_guard_send|].
    eapply rtc_l; [apply (Janitor.step_stop _ 1)|]. simpl.
    eapply rtc_l; [by apply Janitor.step_guard_send|]. apply rtc_refl.
  - intros s' Hstep. inversion Hstep.
  - intros s Hreach.
    assert (Hinv : two_stops_inv interval s).
    { eapply two_stops_inv_reachable; [done| |exact Hreach].
      split; [done|]. left. simpl. auto. }
    destruct Hinv as [_ [[_ [Hp|Hp]]|[_ [Hp|Hp]]]]; by rewrite Hp.
Qed.

Lemma StopJanitor_twice_blocks_witness :
  Janitor.stuck
    (Janitor.mkSystem (New 60000000000) Janitor.Returned (Janitor.Sending 0)) /\
  forall s, Janitor.reachable (Janitor.New 60000000000 2) s ->
            Janitor.call s <> Janitor.Finished.
Proof.
  assert (Hpos : 0 < 60000000000) by lia.
  destruct (StopJanitor_twice_blocks 60000000000 Hpos) as (_ & Hstuck & Hnever).
  by split.
Defined.

(** ** The checks of the package's tests, run on the model *)

(** [TestCacheBasic]: a string is read back by [GetString]. *)
Example test_basic_string :
  let c := fst (Set_ demo_Marshal (New (60 * Second)) t0 t0 "test"%string
                  (VString "value"%string)) in
  GetString c (t0 + 1) "test"%string = ("value"%string, true).
Proof. vm_compute. reflexivity. Qed.

(** [TestCacheExpiration]: available at once, gone 400ms later though no
    sweep has run, and still counted. *)
Example test_expiration :
  let c := fst (SetWithExpiration demo_Marshal (New (100 * Millisecond)) t0 t0
                  "expire"%string (VString "soon"%string) (300 * Millisecond)) in
  GetString c t0 "expire"%string = ("soon"%string, true) /\
  GetString c (t0 + 400 * Millisecond) "expire"%string = (EmptyString, false) /\
  Exists c (t0 + 400 * Millisecond) "expire"%string = false /\
  Count c = 1 /\
  Count (DeleteExpired c (t0 + 400 * Millisecond)) = 0.
Proof. vm_compute. repeat split; reflexivity. Qed.

(** [TestCacheExpiration], the TTL checks: between 0 and 5 seconds for a key
    with a deadline, [-1] for a key without. *)
Example test_ttl :
  let c1 := fst (SetWithExpiration demo_Marshal (New (100 * Millisecond)) t0 t0
                   "ttl-test"%string (VString "value"%string) (5 * Second)) in
  let c2 := fst (Set_ demo_Marshal c1 t0 t0 "forever"%string
                   (VString "value"%string)) in
  TTL c2 (t0 + 7) "ttl-test"%string = (5 * Second - 7, None) /\
  TTL c2 (t0 + 7) "forever"%string = (-1, None) /\
  TTL c2 (t0 + 6 * Second) "ttl-test"%string = (0, Some KeyExpired) /\
  TTL c2 (t0 + 7) "missing"%string = (0, Some KeyNotFound).
Proof. vm_compute. repeat split; reflexivity. Qed.

(** [TestCacheDelete]: a deleted key is not found, and [Flush] empties the
    cache. *)
Example test_delete_flush :
  let c1 := fst (Set_ demo_Marshal (New (60 * Second)) t0 t0 "delete-me"%string
                   (VString "value"%string)) in
  let c2 := fst (Set_ demo_Marshal (Delete c1 "delete-me"%string) t0 t0
                   "key1"%string (VString "value1"%string)) in
  GetString (Delete c1 "delete-me"%string) t0 "delete-me"%string
    = (EmptyString, false) /\
  Count c2 = 1 /\ Count (Flush c2) = 0.
Proof. vm_compute. repeat split; reflexivity. Qed.

(** [TestRawBytes]: bytes are stored and read back as they are. *)
Example test_raw_bytes :
  let raw := [Byte.x01; Byte.x02; Byte.x03; Byte.x04] in
  let c := fst (Set_ demo_Marshal (New (60 * Second)) t0 t0 "binary"%string
                  (VBytes raw)) in
  GetBytes c (t0 + 1) "binary"%string = (raw, true).
Proof. vm_compute. reflexivity. Qed.

(** A value [json.Marshal] refuses leaves the cache as it was. *)
Example test_encoding_error :
  SetWithExpiration demo_Marshal example_cache t0 t0 "temporary"%string
    (VOther DChan) Second
  = (example_cache, Some (json_error "json: unsupported type: chan int")).
Proof. reflexivity. Qed.

(** * Further properties of the store *)

(** ** [Delete], [Flush] and [New] *)

(** X1: after [Delete(k)] no reader finds [k] and [TTL] says "key not
    found", whatever the entry was; the other keys keep their entries;
    [Count] drops by one when [k] had an entry, expired or not, and a
    [Delete] of a key without an entry changes nothing, so that a second
    [Delete] is a no-op. *)
Theorem Delete_removes (c : Cache) (k : string) (now : Z) :
  GetBytes (Delete c k) now k = ([], false) /\
  Exists (Delete c k) now k = false /\
  TTL (Delete c k) now k = (0, Some KeyNotFound) /\
  (forall j, j <> k -> items (Delete c k) !! j = items c !! j) /\
  Count (Delete c k) =
    (if bool_decide (is_Some (items c !! k)) then Count c - 1 else Count c) /\
  (items c !! k = None -> Delete c k = c) /\
  Delete (Delete c k) k = Delete c k.
Proof.
  unfold GetBytes, Exists, TTL, Count, Delete; simpl.
  rewrite !lookup_delete_eq. repeat split; try done.
  - intros j Hj. by rewrite lookup_delete_ne.
  - rewrite map_size_delete. destruct (items c !! k) as [item|] eqn:Hk.
    + rewrite bool_decide_eq_true_2 by eauto.
      assert (size (items c) <> 0%nat).
      { apply (map_size_ne_0_lookup_2 (items c) k). eauto. }
      simpl. lia.
    + rewrite bool_decide_eq_false_2; [done|]. by intros [? ?].
  - intros Hk. apply cache_eq; simpl; [by apply delete_id | done].
  - by rewrite delete_delete_eq.
Qed.

(** [Flush] leaves the cache [New] makes for the same interval, and
    such a cache holds nothing: [Count] is 0, no reader finds any key,
    [TTL] says "key not found" and a sweep changes nothing. *)
Lemma Flush_is_New (c : Cache) (now : Z) (k : string) :
  Flush c = New (cleanupInterval c) /\
  Count (Flush c) = 0 /\
  GetBytes (Flush c) now k = ([], false) /\
  GetString (Flush c) now k = (EmptyString, false) /\
  Exists (Flush c) now k = false /\
  TTL (Flush c) now k = (0, Some KeyNotFound) /\
  DeleteExpired (Flush c) now = Flush c.
Proof.
  unfold GetString, GetBytes, Exists, TTL, Count, Flush, New; simpl.
  rewrite lookup_empty, map_size_empty. by repeat split.
Qed.

(** ** What the readers agree on *)

Section Readers.

Context {T : Type}.
Context (json_Unmarshal : bytes -> T -> T * option error).

(** X2: [GetBytes], [GetString], [Exists] and every call of [Get] that
    returns report the same found flag, whatever is passed as target; a
    call of [Get] panics exactly when it is given a [*string] that is nil
    for a key that is found (line 117). When the flag is false they return
    the nil slice, the empty string, and no error with the target as it
    was; and [GetString] is the string of the bytes [GetBytes] returns. *)
Theorem readers_agree (c : Cache) (now : Z) (k : string) (tgt : target T) :
  snd (GetBytes c now k) = Exists c now k /\
  snd (GetString c now k) = Exists c now k /\
  fst (fst (Get json_Unmarshal c now k tgt)) = Exists c now k /\
  fst (GetString c now k) = string_of_list_byte (fst (GetBytes c now k)) /\
  (Exists c now k = false ->
     GetBytes c now k = ([], false) /\
     GetString c now k = (EmptyString, false) /\
     Get json_Unmarshal c now k tgt = (false, None, tgt)) /\
  (forall a,
     match Get_call json_Unmarshal c now k a with
     | Returns found err after =>
         found = Exists c now k /\
         (a = ANilStringPtr -> Exists c now k = false) /\
         (Exists c now k = false -> err = None /\ after = a)
     | Panics => a = ANilStringPtr /\ Exists c now k = true
     end) /\
  Get_call json_Unmarshal c now k (ATarget tgt) =
    (let '(found, err, after) := Get json_Unmarshal c now k tgt in
     Returns found err (ATarget after)).
Proof.
  unfold Get_call, Get, GetString, Exists, GetBytes.
  destruct (items c !! k) as [item|];
    [destruct (expired now item)|]; simpl; split_and!; try done;
    try (intros a; by split_and!).
  - destruct tgt as [|old|old]; try done.
    by destruct (json_Unmarshal (Value item) old).
  - intros [[|old|old]|]; try (by split_and!).
    destruct (json_Unmarshal (Value item) old). by split_and!.
  - destruct tgt as [|old|old]; try done.
    by destruct (json_Unmarshal (Value item) old).
Qed.

(** X3: [Get] returns an error only together with [found = true], only for
    a target that is neither nil nor a string pointer, and the error is the
    one the decoder gives on the stored bytes. *)
Theorem Get_error_is_decode_error (c : Cache) (now : Z) (k : string)
    (tgt tgt' : target T) (found : bool) (e : error) :
  Get json_Unmarshal c now k tgt = (found, Some e, tgt') ->
  found = true /\
  exists item old new,
    items c !! k = Some item /\ expired now item = false /\
    tgt = TOther old /\ tgt' = TOther new /\
    json_Unmarshal (Value item) old = (new, Some e).
Proof.
  unfold Get, GetBytes.
  destruct (items c !! k) as [item|]; [|done].
  destruct (expired now item) eqn:He; [done|]. simpl.
  destruct tgt as [|old|old]; try done.
  destruct (json_Unmarshal (Value item) old) as [new err] eqn:Hd.
  intros [= <- -> <-]. split; [done|]. by exists item, old, new.
Qed.

End Readers.

Lemma Get_error_is_decode_error_witness :
  exists item old new,
    items example_cache !! "temporary"%string = Some item /\
    expired 1100 item = false /\
    TOther DChan = TOther old /\ TOther DChan = TOther new /\
    demo_Unmarshal (Value item) old =
      (new, Some (json_error "invalid character 's' looking for beginning of value")).
Proof.
  apply (Get_error_is_decode_error demo_Unmarshal example_cache 1100
           "temporary"%string (TOther DChan) (TOther DChan) true).
  vm_compute. reflexivity.
Defined.

(** ** Sweeps *)

(** X4: a sweep is not seen by the readers: at the instant of the sweep
    and at every later one, [GetBytes], [GetString] and [Exists] answer on
    the swept cache what they answer on the cache as it was. *)
Theorem DeleteExpired_invisible (c : Cache) (now later : Z) (k : string) :
  now <= later ->
  GetBytes (DeleteExpired c now) later k = GetBytes c later k /\
  GetString (DeleteExpired c now) later k = GetString c later k /\
  Exists (DeleteExpired c now) later k = Exists c later k.
Proof.
  intros Hle. unfold GetString, Exists, GetBytes. rewrite lookup_DeleteExpired.
  destruct (items c !! k) as [item|]; [|done].
  destruct (expired now item) eqn:He; [|done].
  apply expired_true in He as [Hpos Hlt].
  assert (Hl : expired later item = true) by (apply expired_true; lia).
  by rewrite Hl.
Qed.

Lemma DeleteExpired_invisible_witness :
  GetBytes (DeleteExpired example_cache 1400) 1500 "temporary"%string
  = GetBytes example_cache 1500 "temporary"%string.
Proof.
  assert (H : 1400 <= 1500) by lia.
  apply (DeleteExpired_invisible example_cache 1400 1500 "temporary"%string H).
Defined.

(** X5: [TTL] does see a sweep: for an entry the sweep removes, the error
    "key expired" before the sweep is "key not found" after it, at the
    instant of the sweep and at every later one; for every other key the
    answer of [TTL] is the same. *)
Theorem DeleteExpired_TTL (c : Cache) (now later : Z) (k : string) :
  now <= later ->
  (forall item, items c !! k = Some item -> expired now item = true ->
     TTL c later k = (0, Some KeyExpired) /\
     TTL (DeleteExpired c now) later k = (0, Some KeyNotFound)) /\
  ((forall item, items c !! k = Some item -> expired now item = false) ->
     TTL (DeleteExpired c now) later k = TTL c later k).
Proof.
  intros Hle. unfold TTL. rewrite lookup_DeleteExpired. split.
  - intros item Hk He. rewrite Hk, He.
    apply expired_true in He as [Hpos Hlt].
    assert (Hnz : Expiration item <> 0) by lia.
    assert (Hl : Expiration item < later) by lia.
    rewrite (proj2 (Z.eqb_neq _ _) Hnz).
    by rewrite (proj2 (Z.ltb_lt _ _) Hl).
  - destruct (items c !! k) as [item|]; [|done].
    intros He. by rewrite (He item eq_refl).
Qed.

Lemma DeleteExpired_TTL_witness :
  TTL example_cache 1500 "temporary"%string = (0, Some KeyExpired) /\
  TTL (DeleteExpired example_cache 1400) 1500 "temporary"%string
  = (0, Some KeyNotFound).
Proof.
  assert (H : 1400 <= 1500) by lia.
  destruct (DeleteExpired_TTL example_cache 1400 1500 "temporary"%string H)
    as [Hgone _].
  apply (Hgone (mkItem (list_byte_of_string "soon") 1300 1000)).
  - vm_compute. reflexivity.
  - reflexivity.
Defined.

(** X6: two sweeps are the later of the two: sweeping at [n1] and then at
    [n2] leaves the cache that one sweep at the larger instant leaves. So a
    sweep repeated at the same instant, or at an earlier one, changes
    nothing. *)
Theorem DeleteExpired_twice (c : Cache) (n1 n2 : Z) :
  DeleteExpired (DeleteExpired c n1) n2 = DeleteExpired c (Z.max n1 n2) /\
  (n2 <= n1 -> DeleteExpired (DeleteExpired c n1) n2 = DeleteExpired c n1).
Proof.
  assert (Hmax : DeleteExpired (DeleteExpired c n1) n2 = DeleteExpired c (Z.max n1 n2)).
  { apply cache_eq; [|done]. apply map_eq. intros k.
    rewrite !lookup_DeleteExpired.
    destruct (items c !! k) as [item|]; [|done].
    destruct (expired n1 item) eqn:H1, (expired n2 item) eqn:H2,
             (expired (Z.max n1 n2) item) eqn:H3; try done;
      rewrite ?expired_true, ?expired_false in *; lia. }
  split; [exact Hmax|]. intros Hle. rewrite Hmax. by rewrite Z.max_l.
Qed.

(** ** [TTL] against [Exists] *)

(** X7: in a well-formed cache [TTL] returns without an error exactly for
    the keys [Exists] reports. *)
Theorem TTL_ok_iff_Exists (c : Cache) (now : Z) (k : string) :
  valid_cache c ->
  (exists d, TTL c now k = (d, None)) <-> Exists c now k = true.
Proof.
  intros Hc. unfold TTL, Exists.
  destruct (items c !! k) as [item|] eqn:Hk.
  - destruct (Hc k item Hk) as [Hlo _].
    destruct (Z.eqb_spec (Expiration item) 0) as [Hz|Hnz].
    + rewrite (expired_never now item Hz). split; [done|]. by exists (-1).
    + destruct (Z.ltb_spec (Expiration item) now) as [Hlt|Hge].
      * assert (He : expired now item = true) by (apply expired_true; lia).
        rewrite He. split; [by intros [d ?]|done].
      * assert (He : expired now item = false) by (apply expired_false; lia).
        rewrite He. split; [done|]. by eexists.
  - split; [by intros [d ?]|done].
Qed.

Lemma TTL_ok_iff_Exists_witness :
  (exists d, TTL example_cache 1100 "temporary"%string = (d, None)) <->
  Exists example_cache 1100 "temporary"%string = true.
Proof.
  apply (TTL_ok_iff_Exists example_cache 1100 "temporary"%string
           example_cache_valid).
Defined.

(** X8: outside the well-formed caches the two disagree. An entry whose
    stored [Expiration] is negative is found by [GetBytes] and [Exists] at
    every instant and kept by every sweep (lines 96, 152 and 180 ask for
    [Expiration > 0]), while [TTL], which compares with 0 only for
    equality (line 219), answers "key expired" at every clock reading
    after the epoch. *)
Theorem negative_Expiration (c : Cache) (now : Z) (k : string) (item : Item) :
  items c !! k = Some item -> Expiration item < 0 -> 0 <= now ->
  GetBytes c now k = (Value item, true) /\
  Exists c now k = true /\
  items (DeleteExpired c now) !! k = Some item /\
  TTL c now k = (0, Some KeyExpired).
Proof.
  intros Hk Hneg Hnow.
  pose proof (expired_negative now item Hneg) as He.
  unfold GetBytes, Exists, TTL. rewrite lookup_DeleteExpired, Hk, He.
  repeat split; try done.
  assert (Hnz : Expiration item <> 0) by lia.
  assert (Hlt : Expiration item < now) by lia.
  rewrite (proj2 (Z.eqb_neq _ _) Hnz).
  by rewrite (proj2 (Z.ltb_lt _ _) Hlt).
Qed.

Lemma negative_Expiration_witness :
  let c := fst (SetWithExpiration demo_Marshal (New 0) t0 t0 "k"%string
                  (VString "v"%string) int64_max) in
  Exists c (t0 + 1) "k"%string = true /\
  TTL c (t0 + 1) "k"%string = (0, Some KeyExpired).
Proof.
  intros c.
  assert (Hnow : 0 <= t0 + 1) by (unfold t0; lia).
  destruct (negative_Expiration c (t0 + 1) "k"%string
              (mkItem (list_byte_of_string "v") (t0 + int64_max - 2 ^ 64) t0))
    as (_ & He & _ & Ht).
  - vm_compute. reflexivity.
  - vm_compute. reflexivity.
  - exact Hnow.
  - by split.
Defined.

(** ** Writing *)

Section Writing.

Context {T : Type}.
Context (json_Marshal : T -> bytes + error).

(** X9: a key written with a positive duration, when the clock reads
    [now] and the deadline [now + duration] fits in an [int64], is found up
    to and including the deadline and not after it; up to the deadline [TTL]
    is what is left of the duration, between 0 and the duration, and a sweep
    keeps the entry; after it [TTL] says "key expired" and a sweep removes
    the entry. *)
Theorem SetWithExpiration_window (c c' : Cache) (now created : Z) (k : string)
    (v : value T) (duration later : Z) :
  0 < duration -> valid_clock now -> now + duration <= int64_max ->
  SetWithExpiration json_Marshal c now created k v duration = (c', None) ->
  (Exists c' later k = true <-> later <= now + duration) /\
  (later <= now + duration ->
     (exists b, encode json_Marshal v = inl b /\ GetBytes c' later k = (b, true)) /\
     items (DeleteExpired c' later) !! k = items c' !! k) /\
  (now <= later <= now + duration ->
     TTL c' later k = (now + duration - later, None) /\
     0 <= now + duration - later <= duration) /\
  (now + duration < later ->
     TTL c' later k = (0, Some KeyExpired) /\
     items (DeleteExpired c' later) !! k = None).
Proof.
  intros Hd [Hnow Hmax] Hfit Hset.
  destruct (SetWithExpiration_success_inv _ _ _ _ _ _ _ _ Hset) as (b & Henc & ->).
  rewrite (expiration_of_ttl now duration Hd Hfit Hnow).
  set (item := mkItem b (now + duration) created).
  unfold Exists, GetBytes, TTL. rewrite lookup_DeleteExpired. simpl.
  rewrite lookup_insert_eq.
  assert (Hnz : Expiration item <> 0) by (simpl; lia).
  rewrite (proj2 (Z.eqb_neq _ _) Hnz).
  destruct (Z.le_gt_cases later (now + duration)) as [Hle|Hgt].
  - assert (He : expired later item = false) by (apply expired_false; simpl; lia).
    rewrite He. rewrite (proj2 (Z.ltb_ge (Expiration item) later) Hle).
    split; [done|]. split; [intros _; split; [by exists b|done]|].
    split; [|simpl; lia]. intros [Hl _]. split; [|lia].
    rewrite wrap64_id; [done|].
    unfold int64_range, int64_min, int64_max in *. simpl. lia.
  - assert (He : expired later item = true) by (apply expired_true; simpl; lia).
    rewrite He. rewrite (proj2 (Z.ltb_lt (Expiration item) later) Hgt).
    split; [split; [done|lia]|]. split; [lia|]. split; [lia|done].
Qed.

(** X10: whatever the duration, a key is found at the clock reading it was
    written at: no duration makes an entry that is expired on arrival. *)
Theorem SetWithExpiration_found_at_once (c c' : Cache) (now created : Z)
    (k : string) (v : value T) (duration : Z) :
  int64_range now -> int64_range duration ->
  SetWithExpiration json_Marshal c now created k v duration = (c', None) ->
  Exists c' now k = true /\
  exists b, encode json_Marshal v = inl b /\ GetBytes c' now k = (b, true).
Proof.
  intros Hn Hd Hset.
  destruct (SetWithExpiration_success_inv _ _ _ _ _ _ _ _ Hset) as (b & Henc & ->).
  unfold Exists, GetBytes; simpl. rewrite lookup_insert_eq.
  rewrite (expiration_of_not_expired now created duration b Hn Hd).
  split; [done|]. by exists b.
Qed.

(** X11: when [now + duration] does not fit in an [int64], the deadline
    stored is the wrapped sum, a negative number, and the key is found at
    every instant from then on. *)
Theorem SetWithExpiration_overflow (c c' : Cache) (now created : Z)
    (k : string) (v : value T) (duration : Z) :
  valid_clock now -> duration <= int64_max -> int64_max < now + duration ->
  SetWithExpiration json_Marshal c now created k v duration = (c', None) ->
  exists item,
    items c' !! k = Some item /\
    Expiration item = now + duration - 2 ^ 64 /\ Expiration item < 0 /\
    forall later, Exists c' later k = true.
Proof.
  intros [Hnow Hmax] Hd Hover Hset.
  destruct (SetWithExpiration_success_inv _ _ _ _ _ _ _ _ Hset) as (b & Henc & ->).
  assert (Hexp : expiration_of now duration = now + duration - 2 ^ 64).
  { unfold expiration_of, Now_Add_UnixNano, int64_max in *.
    destruct (Z.leb_spec duration 0) as [Hle|Hgt]; [lia|].
    unfold wrap64.
    replace (now + duration + 2 ^ 63) with
      ((now + duration - 2 ^ 63) + 1 * 2 ^ 64) by lia.
    rewrite Z.mod_add by lia. rewrite Z.mod_small; lia. }
  eexists. split; [simpl; apply lookup_insert_eq|]. simpl.
  rewrite Hexp. unfold int64_max in *. split; [done|]. split; [lia|].
  intros later. unfold Exists; simpl. rewrite lookup_insert_eq.
  rewrite expired_negative; [done|]. simpl. lia.
Qed.

(** X12: the last write wins: a write of [k] that succeeds leaves the same
    cache whether or not another write of [k] came before it. *)
Theorem SetWithExpiration_overwrites (c : Cache) (n1 cr1 n2 cr2 : Z)
    (k : string) (v1 v2 : value T) (d1 d2 : Z) (b : bytes) :
  encode json_Marshal v2 = inl b ->
  SetWithExpiration json_Marshal
    (fst (SetWithExpiration json_Marshal c n1 cr1 k v1 d1)) n2 cr2 k v2 d2
  = SetWithExpiration json_Marshal c n2 cr2 k v2 d2.
Proof.
  intros Henc. rewrite !(SetWithExpiration_ok _ _ _ _ _ _ _ b Henc).
  f_equal. apply cache_eq.
  - simpl. unfold SetWithExpiration.
    destruct (encode json_Marshal v1); simpl; [|done]. by rewrite insert_insert_eq.
  - simpl. unfold SetWithExpiration. by destruct (encode json_Marshal v1).
Qed.

(** X13: a write that succeeds adds one to [Count] when the key had no
    entry, and leaves [Count] as it was when the key had one, expired or
    not. *)
Theorem Count_SetWithExpiration (c : Cache) (now created : Z) (k : string)
    (v : value T) (duration : Z) (b : bytes) :
  encode json_Marshal v = inl b ->
  Count (fst (SetWithExpiration json_Marshal c now created k v duration)) =
  if bool_decide (is_Some (items c !! k)) then Count c else Count c + 1.
Proof.
  intros Henc. rewrite (SetWithExpiration_ok _ _ _ _ _ _ _ b Henc).
  unfold Count; simpl. rewrite map_size_insert.
  destruct (items c !! k) as [item|] eqn:Hk.
  - by rewrite bool_decide_eq_true_2 by eauto.
  - rewrite bool_decide_eq_false_2 by (by intros [? ?]). simpl. lia.
Qed.

(** X14: writes of two different keys commute up to the clock. Each call
    reads the clock itself (lines 71 and 78), so the readings follow the
    order of the calls. Whatever the readings in the two orders, the two
    caches hold the same keys with the same bytes, and the same entries
    under every other key; they agree on the deadlines too when neither
    call sets one (both durations zero or negative); and they are equal
    when each call takes the same readings in both orders. *)
Theorem SetWithExpiration_commute (c : Cache) (n1 cr1 n2 cr2 m1 dr1 m2 dr2 : Z)
    (k1 k2 : string) (v1 v2 : value T) (d1 d2 : Z) :
  k1 <> k2 ->
  let A := fst (SetWithExpiration json_Marshal
                  (fst (SetWithExpiration json_Marshal c n1 cr1 k1 v1 d1))
                  n2 cr2 k2 v2 d2) in
  let B := fst (SetWithExpiration json_Marshal
                  (fst (SetWithExpiration json_Marshal c m2 dr2 k2 v2 d2))
                  m1 dr1 k1 v1 d1) in
  (forall j, Value <$> items A !! j = Value <$> items B !! j) /\
  (forall j, j <> k1 -> j <> k2 -> items A !! j = items B !! j) /\
  (d1 <= 0 -> d2 <= 0 -> observable A = observable B) /\
  (n1 = m1 -> cr1 = dr1 -> n2 = m2 -> cr2 = dr2 -> A = B).
Proof.
  intros Hne A B. unfold A, B, SetWithExpiration.
  destruct (encode json_Marshal v1) as [b1|e1],
           (encode json_Marshal v2) as [b2|e2]; simpl.
  - split; [|split; [|split]].
    + intros j. rewrite !lookup_insert. repeat case_decide; subst; done.
    + intros j H1 H2. by rewrite !lookup_insert_ne.
    + intros H1 H2. rewrite !expiration_of_no_ttl by done.
      apply map_eq. intros j. unfold observable; simpl.
      rewrite !lookup_fmap, !lookup_insert. repeat case_decide; subst; done.
    + intros -> -> -> ->. apply cache_eq; [|done]. simpl.
      by apply insert_insert_ne.
  - split; [|split; [|split]].
    + intros j. rewrite !lookup_insert. repeat case_decide; subst; done.
    + intros j H1 H2. by rewrite !lookup_insert_ne.
    + intros H1 H2. rewrite !expiration_of_no_ttl by done.
      unfold observable; simpl. by rewrite !fmap_insert.
    + by intros -> -> -> ->.
  - split; [|split; [|split]].
    + intros j. rewrite !lookup_insert. repeat case_decide; subst; done.
    + intros j H1 H2. by rewrite !lookup_insert_ne.
    + intros H1 H2. rewrite !expiration_of_no_ttl by done.
      unfold observable; simpl. by rewrite !fmap_insert.
    + by intros -> -> -> ->.
  - done.
Qed.

(** X15: a [Delete] undoes a write of the same key: what is left is the
    cache with the key deleted, which is the cache itself when the key had
    no entry. *)
Theorem Delete_after_Set (c : Cache) (now created : Z) (k : string)
    (v : value T) (duration : Z) :
  Delete (fst (SetWithExpiration json_Marshal c now created k v duration)) k
  = Delete c k /\
  (items c !! k = None ->
   Delete (fst (SetWithExpiration json_Marshal c now created k v duration)) k = c).
Proof.
  assert (H : Delete (fst (SetWithExpiration json_Marshal c now created k v
                             duration)) k = Delete c k).
  { unfold SetWithExpiration.
    destruct (encode json_Marshal v); simpl; [|done].
    apply cache_eq; [|done]. simpl. apply delete_insert_eq. }
  split; [exact H|]. intros Hk. rewrite H.
  apply cache_eq; [|done]. simpl. by apply delete_id.
Qed.

End Writing.

Lemma SetWithExpiration_window_witness :
  let c' := fst (SetWithExpiration demo_Marshal (New 0) t0 t0 "ttl-test"%string
                   (VString "value"%string) (5 * Second)) in
  Exists c' (t0 + 7) "ttl-test"%string = true /\
  TTL c' (t0 + 7) "ttl-test"%string = (t0 + 5 * Second - (t0 + 7), None).
Proof.
  intros c'.
  assert (Hd : 0 < 5 * Second) by (unfold Second; lia).
  assert (Hclock : valid_clock t0) by (unfold valid_clock, t0, int64_max; lia).
  assert (Hfit : t0 + 5 * Second <= int64_max)
    by (unfold t0, Second, int64_max; lia).
  destruct (SetWithExpiration_window demo_Marshal (New 0) c' t0 t0
              "ttl-test"%string (VString "value"%string) (5 * Second) (t0 + 7)
              Hd Hclock Hfit eq_refl) as (Hex & _ & Httl & _).
  split.
  - apply Hex. unfold t0, Second. lia.
  - apply Httl. unfold t0, Second. lia.
Defined.

Lemma SetWithExpiration_found_at_once_witness :
  let c' := fst (SetWithExpiration demo_Marshal (New 0) t0 t0 "k"%string
                   (VString "v"%string) 1) in
  Exists c' t0 "k"%string = true.
Proof.
  intros c'.
  assert (Hn : int64_range t0)
    by (unfold int64_range, int64_min, int64_max, t0; lia).
  assert (Hd : int64_range 1) by (unfold int64_range, int64_min, int64_max; lia).
  apply (SetWithExpiration_found_at_once demo_Marshal (New 0) c' t0 t0 "k"%string
           (VString "v"%string) 1 Hn Hd eq_refl).
Defined.

Lemma SetWithExpiration_overflow_witness :
  let c' := fst (SetWithExpiration demo_Marshal (New 0) t0 t0 "k"%string
                   (VString "v"%string) int64_max) in
  exists item,
    items c' !! "k"%string = Some item /\
    Expiration item = t0 + int64_max - 2 ^ 64 /\ Expiration item < 0 /\
    forall later, Exists c' later "k"%string = true.
Proof.
  intros c'.
  assert (Hclock : valid_clock t0) by (unfold valid_clock, t0, int64_max; lia).
  assert (Hd : int64_max <= int64_max) by lia.
  assert (Hover : int64_max < t0 + int64_max) by (unfold t0; lia).
  apply (SetWithExpiration_overflow demo_Marshal (New 0) c' t0 t0 "k"%string
           (VString "v"%string) int64_max Hclock Hd Hover eq_refl).
Defined.

Lemma SetWithExpiration_overwrites_witness :
  SetWithExpiration demo_Marshal
    (fst (SetWithExpiration demo_Marshal (New 0) 1 1 "k"%string
            (VOther (DBool true)) 5)) 2 2 "k"%string (VString "v"%string) 0
  = SetWithExpiration demo_Marshal (New 0) 2 2 "k"%string (VString "v"%string) 0.
Proof.
  apply (SetWithExpiration_overwrites demo_Marshal (New 0) 1 1 2 2 "k"%string
           (VOther (DBool true)) (VString "v"%string) 5 0
           (list_byte_of_string "v")).
  reflexivity.
Defined.

Lemma Count_SetWithExpiration_witness :
  Count (fst (SetWithExpiration demo_Marshal example_cache 2000 2000
                "temporary"%string (VString "again"%string) 0))
  = if bool_decide (is_Some (items example_cache !! "temporary"%string))
    then Count example_cache else Count example_cache + 1.
Proof.
  apply (Count_SetWithExpiration demo_Marshal example_cache 2000 2000
           "temporary"%string (VString "again"%string) 0
           (list_byte_of_string "again")).
  reflexivity.
Defined.

Lemma SetWithExpiration_commute_witness :
  let A := fst (SetWithExpiration demo_Marshal
                  (fst (SetWithExpiration demo_Marshal (New 0) 10 10 "a"%string
                          (VString "x"%string) 1))
                  11 11 "b"%string (VString "y"%string) 0) in
  let B := fst (SetWithExpiration demo_Marshal
                  (fst (SetWithExpiration demo_Marshal (New 0) 10 10 "b"%string
                          (VString "y"%string) 0))
                  11 11 "a"%string (VString "x"%string) 1) in
  Value <$> items A !! "a"%string = Value <$> items B !! "a"%string /\
  Exists A 12 "a"%string = false /\ Exists B 12 "a"%string = true.
Proof.
  intros A B. split.
  - assert (Hne : "a"%string <> "b"%string) by discriminate.
    destruct (SetWithExpiration_commute demo_Marshal (New 0) 10 10 11 11
                11 11 10 10 "a"%string "b"%string
                (VString "x"%string) (VString "y"%string) 1 0 Hne)
      as (Hval & _).
    apply (Hval "a"%string).
  - split; vm_compute; reflexivity.
Defined.

(** ** Sequences of calls *)

Section Frames.

Context {T : Type}.
Context (json_Marshal : T -> bytes + error).

Lemma exec_frame c (step : Z * op T) k :
  touches k (snd step) = false ->
  items (exec json_Marshal c step) !! k = items c !! k \/
  (items (exec json_Marshal c step) !! k = None /\
   exists item, items c !! k = Some item /\
     snd step = OpDeleteExpired /\ expired (fst step) item = true).
Proof.
  destruct step as [now o]. unfold exec, touches. cbn [fst snd]. intros Ht.
  destruct o as [created key v duration|key| |].
  - apply bool_decide_eq_false in Ht. left. by rewrite SetWithExpiration_other.
  - apply bool_decide_eq_false in Ht. left. unfold Delete; simpl.
    by rewrite lookup_delete_ne.
  - done.
  - rewrite lookup_DeleteExpired.
    destruct (items c !! k) as [item|] eqn:Hk; [|by left].
    destruct (expired now item) eqn:He; [|by left].
    right. split; [done|]. by exists item.
Qed.

(** X16: through any calls among which there is no [Delete] of [k], no
    [Flush] and no [Set] of [k], the entry of [k] is what it was, or it is
    gone because one of the calls was a sweep at an instant at which the
    entry was expired; in particular no call gives an entry to a key it
    does not name. *)
Theorem run_frame (trace : list (Z * op T)) (c : Cache) (k : string) :
  untouched k trace ->
  items (run json_Marshal c trace) !! k = items c !! k \/
  (items (run json_Marshal c trace) !! k = None /\
   exists item now, items c !! k = Some item /\
     (now, OpDeleteExpired) ∈ trace /\ expired now item = true).
Proof.
  unfold run, untouched. revert c.
  induction trace as [|step trace IH]; intros c Hu; simpl; [by left|].
  inversion Hu as [|? ? Hstep Hrest]; subst.
  destruct (IH (exec json_Marshal c step) Hrest)
    as [Hsame|(Hnone & item & now & Hk & Hin & He)].
  - destruct (exec_frame c step k Hstep) as [Heq|(Hnone & item & Hk & Ho & He)].
    + left. by rewrite Hsame.
    + right. split; [by rewrite Hsame|]. exists item, (fst step).
      split; [done|]. split; [|done].
      destruct step as [now o]; simpl in *; subst. apply list_elem_of_here.
  - right. split; [done|].
    destruct (exec_frame c step k Hstep) as [Heq|(Hn & ? & ? & ? & ?)];
      [|congruence].
    exists item, now. split; [by rewrite <- Heq|].
    split; [by apply list_elem_of_further|done].
Qed.

(** X17: well-formedness is kept by every call whose clock reading is
    after the epoch and whose deadline, if it sets one, fits in an
    [int64]; so every cache reached from [New] by such calls is well
    formed. No call changes the cleanup interval. *)
Theorem run_keeps_valid (trace : list (Z * op T)) (c : Cache) :
  Forall fits trace -> valid_cache c ->
  valid_cache (run json_Marshal c trace) /\
  cleanupInterval (run json_Marshal c trace) = cleanupInterval c /\
  forall interval, valid_cache (run json_Marshal (New interval) trace).
Proof.
  intros Hf Hc. split; [by apply run_valid|].
  split; [apply run_cleanupInterval|].
  intros interval. apply run_valid; [done|]. apply valid_cache_empty.
Qed.

End Frames.

Lemma run_frame_witness :
  items (run demo_Marshal example_cache
           [(1500, OpDeleteExpired); (1600, OpDelete "temporary"%string)])
    !! "forever"%string
  = items example_cache !! "forever"%string.
Proof.
  destruct (run_frame demo_Marshal
              [(1500, OpDeleteExpired); (1600, OpDelete "temporary"%string)]
              example_cache "forever"%string) as [Hsame|(Hnone & _)].
  - unfold untouched. repeat constructor.
  - exact Hsame.
  - vm_compute in Hnone. discriminate Hnone.
Defined.

Lemma run_keeps_valid_witness : valid_cache example_cache.
Proof.
  assert (Hf : Forall fits example_trace).
  { unfold example_trace. repeat constructor; simpl; unfold int64_max; lia. }
  destruct (run_keeps_valid demo_Marshal example_trace (New 0) Hf
              (valid_cache_empty 0)) as (Hv & _).
  exact Hv.
Defined.

(** * Further properties of the janitor *)

Lemma no_janitor_finishes c p :
  cleanupInterval c <= 0 ->
  (forall rest, p <> Janitor.Sending rest) ->
  Janitor.reachable (Janitor.mkSystem c Janitor.NotStarted p)
    (Janitor.mkSystem c Janitor.NotStarted Janitor.Finished).
Proof.
  intros Hle Hp. unfold Janitor.reachable.
  destruct p as [rest|rest|]; [|by destruct (Hp rest)|apply rtc_refl].
  clear Hp. induction rest as [|n IH].
  - eapply rtc_l; [by apply Janitor.step_guard_skip|]. apply rtc_refl.
  - eapply rtc_l; [by apply Janitor.step_guard_skip|]. exact IH.
Qed.

Lemma no_janitor_cache c p s :
  cleanupInterval c <= 0 ->
  Janitor.reachable (Janitor.mkSystem c Janitor.NotStarted p) s ->
  Janitor.cache s = c.
Proof.
  intros Hle Hreach. unfold Janitor.reachable in Hreach.
  remember (Janitor.mkSystem c Janitor.NotStarted p) as s0 eqn:Hs0.
  revert p Hs0.
  induction Hreach as [s|s1 s2 s3 Hstep _ IH]; intros p ->; [done|].
  inversion Hstep as [c1 j rest Hc|c1 j rest Hc| |]; subst; [lia|].
  by apply (IH (Janitor.after_call rest)).
Qed.

(** X18: with a cleanup interval that is zero or negative no janitor is
    started, and any number of calls of [StopJanitor] return: in every
    state of such a run the janitor is absent, the cache is the one [New]
    made (nothing is ever swept), the caller is not in the send, and the
    state in which every call has returned can be reached. *)
Theorem StopJanitor_without_janitor (interval : Z) (calls : nat)
    (s : Janitor.system) :
  interval <= 0 ->
  Janitor.reachable (Janitor.New interval calls) s ->
  Janitor.jan s = Janitor.NotStarted /\
  Janitor.cache s = New interval /\
  (forall rest, Janitor.call s <> Janitor.Sending rest) /\
  Janitor.reachable s
    (Janitor.mkSystem (New interval) Janitor.NotStarted Janitor.Finished).
Proof.
  intros Hle Hreach.
  destruct (StopJanitor_never_started_no_send interval calls s Hle Hreach)
    as [Hj Hp].
  rewrite Janitor_New_not_positive in Hreach by done.
  assert (Hle' : cleanupInterval (New interval) <= 0) by done.
  pose proof (no_janitor_cache _ _ _ Hle' Hreach) as Hc.
  split; [done|]. split; [done|]. split; [done|].
  destruct s as [c j p]; simpl in *; subst.
  by apply no_janitor_finishes.
Qed.

Lemma StopJanitor_without_janitor_witness :
  Janitor.reachable (Janitor.New 0 2)
    (Janitor.mkSystem (New 0) Janitor.NotStarted Janitor.Finished).
Proof.
  assert (Hle : 0 <= 0) by lia.
  destruct (StopJanitor_without_janitor 0 2 (Janitor.New 0 2) Hle (rtc_refl _ _))
    as (_ & _ & _ & Hfin).
  exact Hfin.
Defined.

Lemma one_stop_inv_step interval s s' :
  0 < interval ->
  cleanupInterval (Janitor.cache s) = interval /\
  (Janitor.jan s = Janitor.Selecting /\
     (Janitor.call s = Janitor.AtGuard 0 \/ Janitor.call s = Janitor.Sending 0)
   \/ Janitor.jan s = Janitor.Returned /\ Janitor.call s = Janitor.Finished) ->
  Janitor.step s s' ->
  cleanupInterval (Janitor.cache s') = interval /\
  (Janitor.jan s' = Janitor.Selecting /\
     (Janitor.call s' = Janitor.AtGuard 0 \/ Janitor.call s' = Janitor.Sending 0)
   \/ Janitor.jan s' = Janitor.Returned /\ Janitor.call s' = Janitor.Finished).
Proof.
  intros Hpos [Hint Hpc] Hstep.
  inversion Hstep as [c j rest Hc|c j rest Hc|c rest|c now p]; subst; simpl in *.
  - split; [done|].
    destruct Hpc as [[-> [Hp|Hp]]|[_ Hp]]; inversion Hp; subst; auto.
  - lia.
  - split; [done|].
    destruct Hpc as [[_ [Hp|Hp]]|[Hj _]]; [done| |done].
    inversion Hp; subst. right. auto.
  - split; [done|]. destruct Hpc as [[_ Hp]|[Hj _]]; [|done]. left. auto.
Qed.

(** X19: the first call of [StopJanitor] on a running janitor returns,
    whatever the janitor has done in between: from every state of a run of
    [New] with a positive interval and one call, a state is reached in
    which the call has returned and the janitor has returned too. *)
Theorem StopJanitor_first_returns (interval : Z) (s : Janitor.system) :
  0 < interval ->
  Janitor.reachable (Janitor.New interval 1) s ->
  exists c', Janitor.reachable s
    (Janitor.mkSystem c' Janitor.Returned Janitor.Finished).
Proof.
  intros Hpos Hreach.
  assert (Hinv : cleanupInterval (Janitor.cache s) = interval /\
    (Janitor.jan s = Janitor.Selecting /\
       (Janitor.call s = Janitor.AtGuard 0 \/ Janitor.call s = Janitor.Sending 0)
     \/ Janitor.jan s = Janitor.Returned /\ Janitor.call s = Janitor.Finished)).
  { rewrite Janitor_New_positive in Hreach by done.
    unfold Janitor.reachable in Hreach. revert s Hreach. apply rtc_ind_r.
    - simpl. split; [done|]. left. auto.
    - intros s2 s3 _ Hstep IH. by apply (one_stop_inv_step interval s2). }
  destruct s as [c j p]; simpl in Hinv.
  destruct Hinv as [Hint [[-> [->| ->]]|[-> ->]]]; exists c;
    unfold Janitor.reachable.
  - eapply rtc_l; [apply Janitor.step_guard_send; lia|].
    eapply rtc_l; [apply (Janitor.step_stop _ 0)|]. apply rtc_refl.
  - eapply rtc_l; [apply (Janitor.step_stop _ 0)|]. apply rtc_refl.
  - apply rtc_refl.
Qed.

Lemma StopJanitor_first_returns_witness :
  exists c', Janitor.reachable
    (Janitor.mkSystem (DeleteExpired (New 60000000000) 5) Janitor.Selecting
       (Janitor.AtGuard 0))
    (Janitor.mkSystem c' Janitor.Returned Janitor.Finished).
Proof.
  assert (Hpos : 0 < 60000000000) by lia.
  apply (StopJanitor_first_returns 60000000000 _ Hpos).
  unfold Janitor.reachable.
  eapply rtc_l; [|apply rtc_refl].
  apply (Janitor.step_tick (New 60000000000) 5 (Janitor.AtGuard 0)).
Defined.

Lemma step_only_sweeps s s' :
  Janitor.step s s' ->
  Janitor.cache s' = Janitor.cache s /\
    (Janitor.jan s <> Janitor.Selecting -> Janitor.jan s' = Janitor.jan s) \/
  Janitor.jan s = Janitor.Selecting /\ Janitor.jan s' = Janitor.Selecting /\
    exists now, Janitor.cache s' = DeleteExpired (Janitor.cache s) now.
Proof.
  intros Hstep.
  inversion Hstep as [c j rest Hc|c j rest Hc|c rest|c now p]; subst; simpl.
  - by left.
  - by left.
  - left. split; [done|]. by intros H.
  - right. split; [done|]. split; [done|]. by exists now.
Qed.

(** X20: the janitor only sweeps. In a run, the cleanup interval stays;
    an entry of a later state is an entry of the earlier one, unchanged; an
    entry that is gone had a positive deadline; and from a state in which
    the janitor is not running (never started, or returned after a stop)
    the cache does not change any more. *)
Theorem janitor_only_sweeps (s s' : Janitor.system) :
  Janitor.reachable s s' ->
  cleanupInterval (Janitor.cache s') = cleanupInterval (Janitor.cache s) /\
  (forall k,
     items (Janitor.cache s') !! k = items (Janitor.cache s) !! k \/
     items (Janitor.cache s') !! k = None /\
       exists item, items (Janitor.cache s) !! k = Some item /\
                    0 < Expiration item) /\
  (Janitor.jan s <> Janitor.Selecting ->
     Janitor.cache s' = Janitor.cache s /\ Janitor.jan s' = Janitor.jan s).
Proof.
  unfold Janitor.reachable. revert s'. apply rtc_ind_r.
  - split; [done|]. split; [by left|done].
  - intros s2 s3 Hreach Hstep (IHint & IHk & IHj).
    destruct (step_only_sweeps s2 s3 Hstep)
      as [[Hc Hj]|(Hsel & Hsel' & now & Hc)].
    + rewrite Hc. split; [done|]. split; [done|].
      intros Hns. destruct (IHj Hns) as [Hc1 Hj1].
      split; [done|]. rewrite <- Hj1. apply Hj. congruence.
    + rewrite Hc. split; [done|]. split.
      * intros k. rewrite lookup_DeleteExpired.
        destruct (IHk k) as [Hsame|(Hnone & item & Hk & Hpos)].
        -- rewrite Hsame.
           destruct (items (Janitor.cache s) !! k) as [item|] eqn:Hk; [|by left].
           destruct (expired now item) eqn:He; [|by left].
           right. split; [done|]. exists item. split; [done|].
           by apply expired_true in He as [? _].
        -- rewrite Hnone. right. split; [done|]. by exists item.
      * intros Hns. destruct (IHj Hns) as [_ Hj1]. congruence.
Qed.

Lemma janitor_only_sweeps_witness :
  items (DeleteExpired example_cache 1500) !! "forever"%string
    = items example_cache !! "forever"%string \/
  items (DeleteExpired example_cache 1500) !! "forever"%string = None /\
    exists item, items example_cache !! "forever"%string = Some item /\
                 0 < Expiration item.
Proof.
  assert (Hreach : Janitor.reachable
            (Janitor.mkSystem example_cache Janitor.Selecting (Janitor.AtGuard 0))
            (Janitor.mkSystem (DeleteExpired example_cache 1500)
               Janitor.Selecting (Janitor.AtGuard 0))).
  { unfold Janitor.reachable. eapply rtc_l; [|apply rtc_refl].
    apply Janitor.step_tick. }
  destruct (janitor_only_sweeps _ _ Hreach) as (_ & Hk & _).
  apply (Hk "forever"%string).
Defined.

(** * What is never read *)

Lemma observable_lookup c1 c2 k :
  observable c1 = observable c2 ->
  match items c1 !! k, items c2 !! k with
  | Some i1, Some i2 => Value i1 = Value i2 /\ Expiration i1 = Expiration i2
  | None, None => True
  | _, _ => False
  end.
Proof.
  intros Hobs. assert (H : observable c1 !! k = observable c2 !! k) by by rewrite Hobs.
  unfold observable in H. rewrite !lookup_fmap in H.
  destruct (items c1 !! k) as [i1|], (items c2 !! k) as [i2|]; simpl in H;
    try done. by injection H.
Qed.

Lemma expired_observable now i1 i2 :
  Expiration i1 = Expiration i2 -> expired now i1 = expired now i2.
Proof. unfold expired. by intros ->. Qed.

Section Observations.

Context {T : Type}.
Context (json_Marshal : T -> bytes + error).
Context (json_Unmarshal : bytes -> T -> T * option error).

(** X21: [Get] with a [*string] target never decodes. For a pointer that
    is not nil, and for every decoder, it returns what [GetString]
    returns, with no error, whatever kind of value was stored, and when the
    key is not found the string is left as it was. For a nil pointer it
    returns [(false, nil)] when the key is not found and panics when it is
    found (line 117). *)
Theorem Get_string_is_GetString (c : Cache) (now : Z) (k : string)
    (old : string) :
  Get json_Unmarshal c now k (TStringPtr old) =
    (snd (GetString c now k), None,
     TStringPtr (if snd (GetString c now k) then fst (GetString c now k) else old)) /\
  Get_call json_Unmarshal c now k (ATarget (TStringPtr old)) =
    Returns (snd (GetString c now k)) None
      (ATarget (TStringPtr (if snd (GetString c now k)
                            then fst (GetString c now k) else old))) /\
  Get_call json_Unmarshal c now k ANilStringPtr =
    (if snd (GetString c now k) then Panics
     else Returns false None ANilStringPtr).
Proof.
  unfold Get_call, Get, GetString. destruct (GetBytes c now k) as [b found].
  by destruct found.
Qed.

(** X22: [Created] is written and never read: two caches that hold the
    same bytes and deadlines under the same keys give the same answers to
    every reader and the same [Count], and stay such a pair under a sweep,
    a [Delete], and a write, whatever the clock readings stored as
    [Created]. *)
Theorem Created_is_never_read (c1 c2 : Cache) (now : Z) (k : string) :
  observable c1 = observable c2 ->
  GetBytes c1 now k = GetBytes c2 now k /\
  GetString c1 now k = GetString c2 now k /\
  Exists c1 now k = Exists c2 now k /\
  TTL c1 now k = TTL c2 now k /\
  (forall tgt, Get json_Unmarshal c1 now k tgt = Get json_Unmarshal c2 now k tgt) /\
  Count c1 = Count c2 /\
  observable (DeleteExpired c1 now) = observable (DeleteExpired c2 now) /\
  observable (Delete c1 k) = observable (Delete c2 k) /\
  (forall created1 created2 (v : value T) duration,
     observable (fst (SetWithExpiration json_Marshal c1 now created1 k v duration))
     = observable (fst (SetWithExpiration json_Marshal c2 now created2 k v duration))).
Proof.
  intros Hobs.
  assert (Hget : GetBytes c1 now k = GetBytes c2 now k).
  { pose proof (observable_lookup c1 c2 k Hobs) as Hk. unfold GetBytes.
    destruct (items c1 !! k) as [i1|], (items c2 !! k) as [i2|]; try done.
    destruct Hk as [Hv He]. rewrite (expired_observable now i1 i2 He).
    by rewrite Hv. }
  split; [done|]. split; [unfold GetString; by rewrite Hget|].
  split; [by rewrite !Exists_GetBytes, Hget|]. split.
  { pose proof (observable_lookup c1 c2 k Hobs) as Hk. unfold TTL.
    destruct (items c1 !! k) as [i1|], (items c2 !! k) as [i2|]; try done.
    destruct Hk as [_ He]. by rewrite He. }
  split; [intros tgt; unfold Get; by rewrite Hget|]. split.
  { unfold Count.
    assert (Hs : forall c, size (items c) = size (observable c))
      by (intros c; unfold observable; by rewrite map_size_fmap).
    by rewrite !Hs, Hobs. }
  split.
  { apply map_eq. intros j. unfold observable.
    rewrite !lookup_fmap, !lookup_DeleteExpired.
    pose proof (observable_lookup c1 c2 j Hobs) as Hj.
    destruct (items c1 !! j) as [i1|], (items c2 !! j) as [i2|]; try done.
    destruct Hj as [Hv He]. rewrite (expired_observable now i1 i2 He).
    destruct (expired now i2); [done|]. simpl. by rewrite Hv, He. }
  split.
  { unfold observable, Delete; simpl. rewrite !fmap_delete.
    fold (observable c1) (observable c2). by rewrite Hobs. }
  intros created1 created2 v duration. unfold SetWithExpiration.
  destruct (encode json_Marshal v) as [b|e]; simpl; [|done].
  unfold observable; simpl. rewrite !fmap_insert; simpl.
  fold (observable c1) (observable c2). by rewrite Hobs.
Qed.

End Observations.

Lemma Created_is_never_read_witness :
  let c1 := fst (Set_ demo_Marshal (New 0) 1 1 "k"%string (VString "v"%string)) in
  let c2 := fst (Set_ demo_Marshal (New 0) 1 2 "k"%string (VString "v"%string)) in
  c1 <> c2 /\ TTL c1 5 "k"%string = TTL c2 5 "k"%string.
Proof.
  intros c1 c2. split.
  - intros Heq. assert (H : items c1 !! "k"%string = items c2 !! "k"%string)
      by (by rewrite Heq).
    vm_compute in H. discriminate H.
  - assert (Hobs : observable c1 = observable c2).
    { unfold observable, c1, c2, Set_, SetWithExpiration; simpl.
      by rewrite !fmap_insert. }
    destruct (Created_is_never_read demo_Marshal demo_Unmarshal c1 c2 5
                "k"%string Hobs) as (_ & _ & _ & Ht & _).
    exact Ht.
Defined.
